(** * Spandan companion app: realtime list mirror, vote casting, chat
      initialisation and the profanity filter.

    Shallow embedding of
    - [src/components/MatchVoting.tsx] (realtime handler, [handleVote]),
    - the [match_votes] migration (UNIQUE(match_id, user_identifier)),
    - [LiveChat] ([fetchMessages], the reactions handler,
      [toggleReaction], [handleSend]) and the [chat_reactions] migration,
    - the vote tally and [fetchVotes] of the voting components,
    - [src/utils/censorWords.ts] ([createPattern], [censorMessage],
      [containsProfanity]). *)

From Stdlib Require Import String Ascii List Bool Arith NArith Lia.
From Stdlib Require Import Sorted Permutation.
From Equations Require Import Equations.
Import ListNotations.

Local Open Scope string_scope.
Local Open Scope list_scope.
Local Open Scope nat_scope.

(* ===================================================================== *)
(** * Part I: the model *)
(* ===================================================================== *)

(** ** MatchVoting.tsx: rows and the realtime handler *)

Module Mirror.

(** [interface VoteData]. *)
Record VoteData := mkVote {
  id : string;
  match_id : string;
  team_voted : string;
  user_identifier : string
}.

(** The [postgres_changes] payload, by [eventType]; the handler reads
    [payload.new] on INSERT and UPDATE and [payload.old] on DELETE. *)
Inductive payload :=
| INSERT (new : VoteData)
| UPDATE (new : VoteData)
| DELETE (old : VoteData).

(** The callback of [.on('postgres_changes', ...)], as the function it
    passes to [setVotes]:
    - INSERT: [[...prev, payload.new]]
    - UPDATE: [prev.map(v => v.id === payload.new.id ? payload.new : v)]
    - DELETE: [prev.filter(v => v.id !== payload.old.id)]. *)
Definition handler (p : payload) (prev : list VoteData) : list VoteData :=
  match p with
  | INSERT new => prev ++ [new]
  | UPDATE new => map (fun v => if String.eqb (id v) (id new) then new else v) prev
  | DELETE old => filter (fun v => negb (String.eqb (id v) (id old))) prev
  end.

(** What can happen to the [votes] state: a realtime event, or the
    completion of the bulk read ([if (data) setVotes(data)]). *)
Inductive step :=
| Event (p : payload)
| Fetched (data : list VoteData).

Definition apply (st : step) (prev : list VoteData) : list VoteData :=
  match st with
  | Event p => handler p prev
  | Fetched data => data
  end.

Definition run (sts : list step) (prev : list VoteData) : list VoteData :=
  fold_left (fun acc st => apply st acc) sts prev.

Definition ids (vs : list VoteData) : list string := map id vs.

(** Number of entries carrying identifier [x]. *)
Definition count_id (x : string) (vs : list VoteData) : nat :=
  length (filter (fun v => String.eqb (id v) x) vs).

End Mirror.

(** ** MatchVoting.tsx: [handleVote] and the [match_votes] table *)

Module Voting.
Import Mirror.

(** The state of one [MatchVoting] component that [handleVote] reads or
    writes. *)
Record component := mkComponent {
  matchId : string;
  votes : list VoteData;
  userVote : option string;
  userIdentifier : string;
  isVoting : bool
}.

(** The remote writes [handleVote] can issue. *)
Inductive write :=
| Update (row_id : string) (team : string)
    (* .update({ team_voted: team }).eq('id', existingVote.id) *)
| Insert (match_id team user_identifier : string).
    (* .insert({ match_id, team_voted, user_identifier }) *)

Definition set_userVote (team : string) (c : component) : component :=
  {| matchId := matchId c; votes := votes c; userVote := Some team;
     userIdentifier := userIdentifier c; isVoting := isVoting c |}.

(** [handleVote(team)]: the write it issues, if any, and the component
    afterwards.  The awaited write resolves (a rejected write is reported in
    the returned object, not thrown), so [setUserVote(team)] follows every
    issued write and [isVoting] is back to false at the end. *)
Definition handleVote (team : string) (c : component) : option write * component :=
  if String.eqb (userIdentifier c) "" || isVoting c then (None, c)
  else
    match find (fun v => String.eqb (user_identifier v) (userIdentifier c)) (votes c) with
    | Some existingVote =>
        if String.eqb (team_voted existingVote) team
        then (None, c)                         (* Same vote, do nothing *)
        else (Some (Update (id existingVote) team), set_userVote team c)
    | None =>
        (Some (Insert (matchId c) team (userIdentifier c)), set_userVote team c)
    end.

(** The [match_votes] table.  [match_id ... REFERENCES public.matches(id)],
    [PRIMARY KEY (id)] and [UNIQUE(match_id, user_identifier)] reject a
    violating insert; [matchIds] are the identifiers of the rows of
    [public.matches] and [fresh] is the identifier [gen_random_uuid()]
    draws for an inserted row.  An update of [team_voted] touches none of the
    constraints.  An accepted write is announced to the realtime
    subscribers. *)
Definition same_pair (m u : string) (v : VoteData) : bool :=
  String.eqb (match_id v) m && String.eqb (user_identifier v) u.

Definition set_team (team : string) (v : VoteData) : VoteData :=
  {| id := id v; match_id := match_id v; team_voted := team;
     user_identifier := user_identifier v |}.

Definition apply_write (w : write) (fresh : string) (matchIds : list string)
  (table : list VoteData) : list VoteData * list payload :=
  match w with
  | Insert m team u =>
      if negb (existsb (String.eqb m) matchIds)
         || existsb (same_pair m u) table
         || existsb (fun v => String.eqb (id v) fresh) table
      then (table, [])
      else let row := mkVote fresh m team u in (table ++ [row], [INSERT row])
  | Update row_id team =>
      (map (fun v => if String.eqb (id v) row_id then set_team team v else v) table,
       map (fun v => UPDATE (set_team team v))
           (filter (fun v => String.eqb (id v) row_id) table))
  end.

(** The remote tables (the identifiers of [public.matches] and the rows
    of [match_votes]) together with one component. *)
Record world := mkWorld {
  matches : list string;
  remote : list VoteData;
  comp : component
}.

Definition set_votes (vs : list VoteData) (c : component) : component :=
  {| matchId := matchId c; votes := vs; userVote := userVote c;
     userIdentifier := userIdentifier c; isVoting := isVoting c |}.

(** The voter casts [team]: [handleVote] runs and the table applies the
    write; the realtime events of the write are returned, not yet
    delivered. *)
Definition cast (team fresh : string) (w : world) : world * list payload :=
  match handleVote team (comp w) with
  | (None, c') => ({| matches := matches w; remote := remote w; comp := c' |}, [])
  | (Some wr, c') =>
      let (table', events) := apply_write wr fresh (matches w) (remote w) in
      ({| matches := matches w; remote := table'; comp := c' |}, events)
  end.

Definition row_of (p : payload) : VoteData :=
  match p with
  | INSERT new => new
  | UPDATE new => new
  | DELETE old => old
  end.

(** The realtime events reach the component's handler; the subscription
    is filtered by [match_id=eq.${matchId}]. *)
Definition deliver (events : list payload) (w : world) : world :=
  {| matches := matches w;
     remote := remote w;
     comp := set_votes
               (fold_left (fun acc p => handler p acc)
                  (filter (fun p => String.eqb (match_id (row_of p)) (matchId (comp w)))
                          events)
                  (votes (comp w)))
               (comp w) |}.

(** The voter of the component has no row yet, neither in the table nor in
    the mirror, the component is ready to vote and its match exists. *)
Definition first_vote_ahead (w : world) : Prop :=
  userIdentifier (comp w) <> ""
  /\ isVoting (comp w) = false
  /\ filter (same_pair (matchId (comp w)) (userIdentifier (comp w))) (remote w) = []
  /\ find (fun v => String.eqb (user_identifier v) (userIdentifier (comp w)))
          (votes (comp w)) = None
  /\ In (matchId (comp w)) (matches w).

(** Cast [teamA] and then [teamB]; [delivered] tells whether the events
    of the first cast reached the mirror before the second cast. *)
Definition cast_twice (teamA teamB fresh1 fresh2 : string) (delivered : bool)
  (w : world) : world :=
  let (w1, events) := cast teamA fresh1 w in
  let w1' := if delivered then deliver events w1 else w1 in
  fst (cast teamB fresh2 w1').

(** The rows of the table for one (match, voter) pair. *)
Definition rows_of (m u : string) (table : list VoteData) : list VoteData :=
  filter (same_pair m u) table.




End Voting.

(** ** LiveChat: the initial read of the messages *)

Module Chat.

(** A row of [chat_messages] as [select('*')] returns it; [created_at] is
    a point in time. *)
Record ChatMessage := mkMessage {
  id : string;
  sport_id : string;
  message : string;
  username : string;
  created_at : N
}.

(** [.order('created_at', { ascending: true })], by insertion; rows with
    equal times keep their table order. *)
Fixpoint insert_by_time (m : ChatMessage) (l : list ChatMessage) : list ChatMessage :=
  match l with
  | [] => [m]
  | x :: l' =>
      if (created_at m <? created_at x)%N then m :: x :: l'
      else x :: insert_by_time m l'
  end.

Definition order_by_created_at (l : list ChatMessage) : list ChatMessage :=
  fold_left (fun acc m => insert_by_time m acc) l [].

(** Chronological order of creation. *)
Definition older (a b : ChatMessage) : Prop := (created_at a <= created_at b)%N.

(** The rows of the table for one sport. *)
Definition rows_for (sportId : string) (table : list ChatMessage) : list ChatMessage :=
  filter (fun m => String.eqb (sport_id m) sportId) table.

(** The query of [fetchMessages]:
    [from('chat_messages').select('*').eq('sport_id', sportId)
       .order('created_at', { ascending: true }).limit(100)]. *)
Definition query (table : list ChatMessage) (sportId : string) : list ChatMessage :=
  firstn 100 (order_by_created_at (rows_for sportId table)).

(** [fetchMessages] once the response is there:
    [if (data) setMessages(data)]; [data] is null when the read failed, and
    an empty array is truthy. *)
Definition fetchMessages (data : option (list ChatMessage))
  (messages : list ChatMessage) : list ChatMessage :=
  match data with
  | Some rows => rows
  | None => messages
  end.

(** [n] rows of sport [sportId] created at times 1 .. n. *)
Definition sample_table (sportId : string) (n : nat) : list ChatMessage :=
  map (fun k => mkMessage (string_of_list_ascii (repeat "m"%char k)) sportId
                          "hi" "fan" (N.of_nat k))
      (seq 1 n).

End Chat.

(** ** utils/censorWords.ts: the profanity filter *)

Module Censor.

(** A JavaScript string is a sequence of UTF-16 code units. *)
Definition char := N.
Definition jsstring := list char.

Definition code (a : ascii) : char := N_of_ascii a.

(** The JavaScript string written with the ASCII literal [s]. *)
Definition str (s : string) : jsstring := map code (list_ascii_of_string s).

(** [const BANNED_WORDS]. *)
Definition BANNED_WORDS : list jsstring := map str
  [ "fuck"; "shit"; "ass"; "bitch"; "damn"; "hell"; "crap";
    "dick"; "cock"; "pussy"; "bastard"; "slut"; "whore";
    "fag"; "retard"; "nigger"; "cunt"; "piss"; "bollocks";
    "wanker"; "twat"; "arse"; "bloody"; "bugger"; "chutiya";
    "madarchod"; "behenchod"; "bhenchod"; "gaand"; "lund"; "randi";
    "harami"; "saala"; "kamina"; "kutta"; "kutti"; "chut" ].

(** *** The regular expressions [createPattern] builds

    Only the constructs that occur in the pattern text are modelled: a
    pattern character, a character class [[...]] (whose members are
    characters or the escape [\s]), a greedy starred class [[...]*] and the
    assertion [\b]; a pattern is their concatenation. *)
Inductive class_item :=
| CChar (c : char)
| CSpace.                      (* \s *)

Inductive node :=
| Char (c : char)
| Class (items : list class_item)
| StarClass (items : list class_item)
| WordBoundary.                (* \b *)

Definition regex := list node.

(** The members [c] of the class written [[s]]. *)
Definition chars (s : string) : list class_item := map CChar (str s).

(** [[\s._-]], the class joined between the letters. *)
Definition separators : list class_item := CSpace :: chars "._-".

(** [String.prototype.toLowerCase] on a one-code-unit string, as far as
    [leetMap]'s keys can tell: ASCII capitals map to their small letters; no
    other code unit lower-cases to one of the keys a, e, i, o, s, t, l. *)
Definition toLowerCase (c : char) : char :=
  if ((65 <=? c) && (c <=? 90))%N then (c + 32)%N else c.

(** [const leetMap]. *)
Definition leetMap (c : char) : option (list class_item) :=
  if (c =? code "a")%N then Some (chars "a@4")
  else if (c =? code "e")%N then Some (chars "e3")
  else if (c =? code "i")%N then Some (chars "i1!")
  else if (c =? code "o")%N then Some (chars "o0")
  else if (c =? code "s")%N then Some (chars "s$5")
  else if (c =? code "t")%N then Some (chars "t7")
  else if (c =? code "l")%N then Some (chars "l1")
  else None.

(** [Array.prototype.join]. *)
Fixpoint join (sep : node) (pieces : list node) : regex :=
  match pieces with
  | [] => []
  | [p] => [p]
  | p :: rest => p :: sep :: join sep rest
  end.

(** A [RegExp] object with flags [gi]: its pattern and the mutable
    [lastIndex] property. *)
Record RegExp := mkRegExp {
  source : regex;
  lastIndex : nat
}.

(** [createPattern]: [leetMap[char.toLowerCase()] || char] for every
    character of the word, joined by [[\s._-]*], between two [\b].  A
    character that is not a key of [leetMap] stands for itself in the
    pattern text; the banned words are made of small ASCII letters, so it is
    read as a pattern character. *)
Definition createPattern (word : jsstring) : RegExp :=
  let pattern :=
    join (StarClass separators)
         (map (fun c => match leetMap (toLowerCase c) with
                        | Some cls => Class cls
                        | None => Char c
                        end) word) in
  {| source := WordBoundary :: pattern ++ [WordBoundary]; lastIndex := 0 |}.

(** An element of [patterns]. *)
Record rule := mkRule {
  word : jsstring;
  pattern : RegExp
}.

(** [const patterns], as the module leaves it after loading. *)
Definition patterns : list rule :=
  map (fun w => {| word := w; pattern := createPattern w |}) BANNED_WORDS.

(** *** Matching (ECMAScript pattern semantics, flags [gi], no [u])

    [Canonicalize] under the [i] flag: a character is compared through its
    upper-case form, and a code unit outside ASCII never canonicalizes into
    ASCII.  The patterns only hold ASCII characters and [\s], whose members
    have no case variants, so the ASCII part decides every comparison. *)
Definition canonicalize (c : char) : char :=
  if ((97 <=? c) && (c <=? 122))%N then (c - 32)%N else c.

(** [\s]: WhiteSpace and LineTerminator code units. *)
Definition is_white_space (c : char) : bool :=
  existsb (N.eqb c)
    [ 9; 10; 11; 12; 13; 32; 160; 5760;
      8192; 8193; 8194; 8195; 8196; 8197; 8198; 8199; 8200; 8201; 8202;
      8232; 8233; 8239; 8287; 12288; 65279 ]%N.

(** [\w]: [[A-Za-z0-9_]]. *)
Definition is_word_char (c : char) : bool :=
  (((48 <=? c) && (c <=? 57)) || ((65 <=? c) && (c <=? 90))
   || ((97 <=? c) && (c <=? 122)) || (c =? 95))%N.

(** [IsWordChar(e)]: false before the first and after the last character. *)
Definition IsWordChar (o : option char) : bool :=
  match o with
  | Some c => is_word_char c
  | None => false
  end.

Definition item_matches (it : class_item) (x : char) : bool :=
  match it with
  | CChar a => (canonicalize a =? canonicalize x)%N
  | CSpace => is_white_space x
  end.

Definition class_matches (items : list class_item) (x : char) : bool :=
  existsb (fun it => item_matches it x) items.

(** The backtracking matcher at one position: [prev] is the character
    before the position, [s] the characters from the position on; the result
    is the number of characters the first successful alternative consumes.
    A starred class tries one more character first and falls back to the
    rest of the pattern when that fails. *)
Fixpoint matcher (r : regex) : option char -> jsstring -> option nat :=
  match r with
  | [] => fun _ _ => Some 0
  | Char c :: r' => fun _ s =>
      match s with
      | x :: s' =>
          if (canonicalize c =? canonicalize x)%N
          then option_map S (matcher r' (Some x) s') else None
      | [] => None
      end
  | Class items :: r' => fun _ s =>
      match s with
      | x :: s' =>
          if class_matches items x
          then option_map S (matcher r' (Some x) s') else None
      | [] => None
      end
  | StarClass items :: r' =>
      fix star (prev : option char) (s : jsstring) : option nat :=
        match s with
        | x :: s' =>
            if class_matches items x
            then match star (Some x) s' with
                 | Some n => Some (S n)
                 | None => matcher r' prev s
                 end
            else matcher r' prev s
        | [] => matcher r' prev s
        end
  | WordBoundary :: r' => fun prev s =>
      if xorb (IsWordChar prev) (IsWordChar (hd_error s))
      then matcher r' prev s else None
  end.

(** The scan of [RegExpBuiltinExec]: the first position, counted from the
    current one, at which the matcher succeeds, with the match length. *)
Fixpoint search (r : regex) (prev : option char) (s : jsstring)
  : option (nat * nat) :=
  match matcher r prev s with
  | Some n => Some (0, n)
  | None =>
      match s with
      | [] => None
      | x :: s' =>
          match search r (Some x) s' with
          | Some (i, n) => Some (S i, n)
          | None => None
          end
      end
  end.

(** The character before index [i] of [s]. *)
Definition char_before (s : jsstring) (i : nat) : option char :=
  match i with
  | 0 => None
  | S j => nth_error s j
  end.

(** [RegExpBuiltinExec] for a global pattern: search from [lastIndex]; on a
    match return its index and length and move [lastIndex] to its end; on
    failure (or when [lastIndex] is past the end) reset [lastIndex] to 0. *)
Definition exec (R : RegExp) (s : jsstring) : option (nat * nat) * RegExp :=
  let li := lastIndex R in
  if (length s <? li)%nat then (None, {| source := source R; lastIndex := 0 |})
  else
    match search (source R) (char_before s li) (skipn li s) with
    | Some (i, n) =>
        (Some (li + i, n), {| source := source R; lastIndex := li + i + n |})
    | None => (None, {| source := source R; lastIndex := 0 |})
    end.

(** [RegExp.prototype.test]. *)
Definition test (R : RegExp) (s : jsstring) : bool * RegExp :=
  match exec R s with
  | (Some _, R') => (true, R')
  | (None, R') => (false, R')
  end.

(** The replacer of [censorMessage]:
    [match => match[0] + '*'.repeat(match.length - 1)].  On an empty match
    [repeat(-1)] throws a RangeError: [None]. *)
Definition star : char := code "*".

Definition redact (m : jsstring) : option jsstring :=
  match m with
  | [] => None
  | c :: rest => Some (c :: repeat star (length rest))
  end.

(** The loop of [RegExp.prototype[Symbol.replace]] for a global pattern,
    from the position whose preceding character is [prev] and whose
    remaining characters are [s]: run the search; without a match the rest
    is copied; with a match at offset [i] of length [n] the characters
    before it are copied, the replacer's result is appended and the loop
    goes on after the match (one character further after an empty match,
    that character being copied). *)
Equations? replace_from (r : regex) (f : jsstring -> option jsstring)
  (prev : option char) (s : jsstring) : option jsstring by wf (length s) lt :=
replace_from r f prev [] with matcher r prev [] := {
  | Some _ => f []
  | None => Some [] };
replace_from r f prev (c :: s') with search r prev (c :: s') := {
  | None => Some (c :: s')
  | Some (i, 0) =>
      match f [], nth_error (c :: s') i with
      | None, _ => None
      | Some e, None => Some (firstn i (c :: s') ++ e)
      | Some e, Some x =>
          match replace_from r f (Some x) (skipn i s') with
          | Some t => Some (firstn i (c :: s') ++ e ++ x :: t)
          | None => None
          end
      end
  | Some (i, S n) =>
      match f (firstn (S n) (skipn i (c :: s'))) with
      | None => None
      | Some e =>
          match replace_from r f (char_before (c :: s') (i + S n))
                             (skipn (i + n) s') with
          | Some t => Some (firstn i (c :: s') ++ e ++ t)
          | None => None
          end
      end }.
Proof.
  all: rewrite length_skipn; lia.
Qed.

(** [String.prototype.replace] with a global [RegExp] and a function:
    [lastIndex] is set to 0 before the loop and is 0 again after the last,
    failing, search. *)
Definition replace (s : jsstring) (R : RegExp) (f : jsstring -> option jsstring)
  : option (jsstring * RegExp) :=
  match replace_from (source R) f None s with
  | Some t => Some (t, {| source := source R; lastIndex := 0 |})
  | None => None
  end.

(** [patterns.forEach(({ word, pattern }) => { censored = censored.replace(
    pattern, ...) })] over the rule objects [ps]. *)
Fixpoint forEach_replace (ps : list rule) (censored : jsstring)
  : option (jsstring * list rule) :=
  match ps with
  | [] => Some (censored, [])
  | p :: ps' =>
      match replace censored (pattern p) redact with
      | None => None
      | Some (censored', R') =>
          match forEach_replace ps' censored' with
          | None => None
          | Some (out, ps'') => Some (out, {| word := word p; pattern := R' |} :: ps'')
          end
      end
  end.

(** [censorMessage], run with the rule objects in state [ps]: the censored
    text and the rule objects afterwards, or [None] if the replacer threw. *)
Definition censorMessage (message : jsstring) (ps : list rule)
  : option (jsstring * list rule) :=
  forEach_replace ps message.

(** [patterns.some(({ pattern }) => pattern.test(message))]: rules are
    probed in order until one tests true; every probe updates the
    [lastIndex] of its pattern, later rules are left untouched. *)
Fixpoint some_test (ps : list rule) (message : jsstring) : bool * list rule :=
  match ps with
  | [] => (false, [])
  | p :: ps' =>
      match test (pattern p) message with
      | (true, R') => (true, {| word := word p; pattern := R' |} :: ps')
      | (false, R') =>
          let (b, ps'') := some_test ps' message in
          (b, {| word := word p; pattern := R' |} :: ps'')
      end
  end.

(** [containsProfanity], run with the rule objects in state [ps]. *)
Definition containsProfanity (message : jsstring) (ps : list rule)
  : bool * list rule :=
  some_test ps message.

End Censor.

(** ** The filter as the specification words it *)

Module CensorSpec.
Import Censor.

(** One rule's pass, character by character: a match keeps its first
    character and every further matched character becomes an asterisk;
    characters outside matches are kept; after a match the scan resumes
    behind it (matches do not overlap).  [pending] counts the characters of
    the current match that are still to be overwritten. *)
Fixpoint censor_pass (r : regex) (prev : option char) (s : jsstring)
  (pending : nat) : jsstring :=
  match s with
  | [] => []
  | c :: s' =>
      match pending with
      | S k => star :: censor_pass r (Some c) s' k
      | 0 =>
          c :: censor_pass r (Some c) s'
                 (match matcher r prev s with
                  | Some n => pred n
                  | None => 0
                  end)
      end
  end.

(** The passes of the rules [ps] in list order, each over the text as the
    earlier rules left it. *)
Definition censor_with (ps : list rule) (text : jsstring) : jsstring :=
  fold_left (fun acc p => censor_pass (source (pattern p)) None acc 0) ps text.

(** [censor(text)]: the passes of all the rules. *)
Definition censor (text : jsstring) : jsstring := censor_with patterns text.

(** A rule's matcher finds a match somewhere in [text]. *)
Definition finds_match (p : rule) (text : jsstring) : bool :=
  match search (source (pattern p)) None text with
  | Some _ => true
  | None => false
  end.

(** [detect(text)]: some rule's matcher finds a match. *)
Definition detect (text : jsstring) : bool :=
  existsb (fun p => finds_match p text) patterns.

(** Characters a node can consume. *)
Definition node_accepts (x : char) (nd : node) : bool :=
  match nd with
  | Char c => (canonicalize c =? canonicalize x)%N
  | Class items => class_matches items x
  | StarClass items => class_matches items x
  | WordBoundary => false
  end.

(** Number of nodes that consume exactly one character. *)
Fixpoint atoms (r : regex) : nat :=
  match r with
  | [] => 0
  | Char _ :: r' => S (atoms r')
  | Class _ :: r' => S (atoms r')
  | _ :: r' => atoms r'
  end.

(** The character before offset [k] of a scan that started with [prev]
    before [s]. *)
Definition prev_at (prev : option char) (s : jsstring) (k : nat) : option char :=
  match k with
  | 0 => prev
  | S j => nth_error s j
  end.

(** What a rule object keeps for its whole life: the word and the pattern;
    only [lastIndex] changes. *)
Definition rule_text (p : rule) : jsstring * regex := (word p, source (pattern p)).

(** [ps] is the module's [patterns] array in some state of its [lastIndex]
    properties. *)
Definition is_patterns_state (ps : list rule) : Prop :=
  map rule_text ps = map rule_text patterns.

(** The rule object with [lastIndex] back at 0. *)
Definition rewound (p : rule) : rule :=
  {| word := word p;
     pattern := {| source := source (pattern p); lastIndex := 0 |} |}.

(** Number of asterisks in a text. *)
Definition stars (s : jsstring) : nat :=
  length (filter (N.eqb star) s).

(** No node of the pattern can consume an asterisk. *)
Definition star_free (r : regex) : bool :=
  negb (existsb (node_accepts star) r).

(** A rule whose matches have at least two characters, none an asterisk. *)
Definition redacting (p : rule) : bool :=
  (2 <=? atoms (source (pattern p)))%nat && star_free (source (pattern p)).

(** The maximal runs of asterisks of a text. *)
Fixpoint asterisk_runs_from (run : jsstring) (s : jsstring) : list jsstring :=
  match s with
  | [] => match run with [] => [] | _ => [run] end
  | c :: s' =>
      if (c =? star)%N then asterisk_runs_from (c :: run) s'
      else match run with
           | [] => asterisk_runs_from [] s'
           | _ => run :: asterisk_runs_from [] s'
           end
  end.

Definition asterisk_runs (s : jsstring) : list jsstring :=
  asterisk_runs_from [] s.

Fixpoint is_prefix (w s : jsstring) : bool :=
  match w, s with
  | [], _ => true
  | _ :: _, [] => false
  | a :: w', b :: s' => (a =? b)%N && is_prefix w' s'
  end.

(** [w] occurs in [s] as a substring. *)
Fixpoint is_substring (w s : jsstring) : bool :=
  is_prefix w s ||
  match s with
  | [] => false
  | _ :: s' => is_substring w s'
  end.

End CensorSpec.

(** ** MatchVoting.tsx: the tally and the initial read of the votes *)

Module Tally.
Import Mirror Voting.

(** [votes.filter(v => v.team_voted === team).length], the count behind
    [teamAVotes] and [teamBVotes]. *)
Definition votes_for (team : string) (votes : list VoteData) : nat :=
  length (filter (fun v => String.eqb (team_voted v) team) votes).

Definition teamAVotes (votes : list VoteData) (teamA : string) : nat :=
  votes_for teamA votes.

Definition teamBVotes (votes : list VoteData) (teamB : string) : nat :=
  votes_for teamB votes.

(** [const totalVotes = teamAVotes + teamBVotes]. *)
Definition totalVotes (votes : list VoteData) (teamA teamB : string) : nat :=
  teamAVotes votes teamA + teamBVotes votes teamB.

(** The read of [fetchVotes]:
    [from('match_votes').select('*').eq('match_id', matchId)]. *)
Definition select_votes (table : list VoteData) (matchId : string) : list VoteData :=
  filter (fun v => String.eqb (match_id v) matchId) table.

(** [fetchVotes] (as in [InlineMatchVoting]; the one of [MatchVoting] also
    clears its loading flag) once the response [data] is there; it only
    runs when [userIdentifier] is set: [setVotes(data)], and [setUserVote]
    with the team of the voter's row when the rows hold one. *)
Definition fetchVotes (data : option (list VoteData)) (c : component) : component :=
  if String.eqb (userIdentifier c) "" then c
  else
    match data with
    | None => c
    | Some rows =>
        match find (fun v => String.eqb (user_identifier v) (userIdentifier c)) rows with
        | Some existingVote => set_userVote (team_voted existingVote) (set_votes rows c)
        | None => set_votes rows c
        end
    end.

(** The mirror of the component holds exactly the rows of its match. *)
Definition in_sync (w : world) : Prop :=
  votes (comp w) = select_votes (remote w) (matchId (comp w)).

(** A cast whose realtime events are delivered to the component right
    away. *)
Definition cast_and_deliver (team fresh : string) (w : world) : world :=
  let (w1, events) := cast team fresh w in deliver events w1.

End Tally.

(** ** LiveChat: reactions *)

Module Reactions.

(** [interface ChatReaction]. *)
Record ChatReaction := mkReaction {
  id : string;
  message_id : string;
  emoji : string;
  user_identifier : string
}.

(** The [postgres_changes] payload of the reactions channel
    ([event: '*']). *)
Inductive payload :=
| INSERT (new : ChatReaction)
| UPDATE (new : ChatReaction)
| DELETE (old : ChatReaction).

(** The callback of the reactions channel: INSERT appends, DELETE filters
    by [id], any other event is ignored. *)
Definition handler (p : payload) (prev : list ChatReaction) : list ChatReaction :=
  match p with
  | INSERT new => prev ++ [new]
  | DELETE old => filter (fun r => negb (String.eqb (id r) (id old))) prev
  | UPDATE _ => prev
  end.

(** The writes [toggleReaction] can issue. *)
Inductive write :=
| Delete (row_id : string)                          (* .delete().eq('id', id) *)
| Insert (message_id emoji user_identifier : string).

Definition same_reaction (m e u : string) (r : ChatReaction) : bool :=
  String.eqb (message_id r) m && String.eqb (emoji r) e
  && String.eqb (user_identifier r) u.


(** The [chat_reactions] table: [PRIMARY KEY (id)] and
    [UNIQUE(message_id, emoji, user_identifier)] reject a violating insert;
    [fresh] is the identifier drawn for an inserted row.  The accepted
    changes are announced to the realtime subscribers. *)
Definition apply_write (w : write) (fresh : string) (table : list ChatReaction)
  : list ChatReaction * list payload :=
  match w with
  | Insert m e u =>
      if existsb (same_reaction m e u) table
         || existsb (fun r => String.eqb (id r) fresh) table
      then (table, [])
      else let row := mkReaction fresh m e u in (table ++ [row], [INSERT row])
  | Delete row_id =>
      (filter (fun r => negb (String.eqb (id r) row_id)) table,
       map DELETE (filter (fun r => String.eqb (id r) row_id) table))
  end.

(** The table together with the mirror of one component. *)
Record world := mkWorld {
  remote : list ChatReaction;
  reactions : list ChatReaction
}.


(** The events reach the handler of the component. *)
Definition deliver (events : list payload) (w : world) : world :=
  {| remote := remote w;
     reactions := fold_left (fun acc p => handler p acc) events (reactions w) |}.

Definition ids (rs : list ChatReaction) : list string := map id rs.


End Reactions.

(** ** LiveChat: sending a message *)

Module Send.
Import Censor.

(** Leading white space removed. *)
Fixpoint trimStart (s : jsstring) : jsstring :=
  match s with
  | [] => []
  | c :: s' => if is_white_space c then trimStart s' else s
  end.

(** [String.prototype.trim]: white space and line terminators removed at
    both ends. *)
Definition trim (s : jsstring) : jsstring :=
  rev (trimStart (rev (trimStart s))).

(** The object [handleSend] inserts into [chat_messages]. *)
Record insert_row := mkInsert {
  sport_id : string;
  message : jsstring;
  username : jsstring
}.

(** What a run of [handleSend] does besides censoring: the name written to
    [localStorage] (if any), the row inserted and the new content of the
    input box. *)
Record sent := mkSent {
  stored_name : option jsstring;
  row : insert_row;
  input_after : jsstring
}.

(** [handleSend] with the input box holding [newMessage], the name field
    holding [username] and the rule objects in state [ps]: [Some (None, ps)]
    when it returns at once, [None] if [censorMessage] threw. *)
Definition handleSend (sportId : string) (newMessage username : jsstring)
  (ps : list rule) : option (option sent * list rule) :=
  match trim newMessage with
  | [] => Some (None, ps)
  | _ :: _ =>
      let finalUsername :=
        match trim username with
        | [] => str "Anonymous"
        | _ :: _ => trim username
        end in
      let stored :=
        match trim username with
        | [] => None
        | _ :: _ => Some finalUsername
        end in
      match censorMessage (trim newMessage) ps with
      | None => None
      | Some (censoredMessage, ps1) =>
          match censorMessage finalUsername ps1 with
          | None => None
          | Some (censoredUsername, ps2) =>
              Some (Some {| stored_name := stored;
                            row := {| sport_id := sportId;
                                      message := censoredMessage;
                                      username := censoredUsername |};
                            input_after := [] |},
                    ps2)
          end
      end
  end.

End Send.

(** ** Notions used to state the properties of the filter *)

Module FilterFacts.
Import Censor.

(** Two characters that the [i] flag identifies. *)
Definition same_letter (x y : char) : Prop := canonicalize x = canonicalize y.

(** An ASCII letter. *)
Definition is_letter (c : char) : bool :=
  (((65 <=? c) && (c <=? 90)) || ((97 <=? c) && (c <=? 122)))%N.

(** A word made of ASCII letters only, and not empty: what
    [createPattern] is written for. *)
Definition plain_word (w : jsstring) : bool :=
  negb (length w =? 0) && forallb is_letter w.

(** The rule objects [BANNED_WORDS.map(...)] builds from a word list. *)
Definition rules_of (words : list jsstring) : list rule :=
  map (fun w => {| word := w; pattern := createPattern w |}) words.

(** A character of the output is the character of the input at the same
    place, or an asterisk. *)
Definition kept_or_star (x y : char) : Prop := y = x \/ y = star.

(** Equality of two texts, as a test. *)
Fixpoint same_text (a b : jsstring) : bool :=
  match a, b with
  | [], [] => true
  | x :: a', y :: b' => (x =? y)%N && same_text a' b'
  | _, _ => false
  end.

(** The text is redacted to its first character followed by asterisks,
    and detected. *)
Definition fully_redacted (w : jsstring) : bool :=
  match w with
  | [] => false
  | c :: rest =>
      same_text (CensorSpec.censor w) (c :: repeat star (length rest))
      && CensorSpec.detect w
  end.

End FilterFacts.

(* ===================================================================== *)
(** * Part II: properties *)
(* ===================================================================== *)

Section MirrorProperties.
Import Mirror.

Lemma count_id_app x vs ws :
  count_id x (vs ++ ws) = count_id x vs + count_id x ws.
Proof.
  unfold count_id. now rewrite filter_app, length_app.
Qed.

Lemma count_id_zero x vs : ~ In x (ids vs) -> count_id x vs = 0.
Proof.
  unfold count_id, ids. induction vs as [|v vs IH]; simpl; intros H; [reflexivity|].
  destruct (String.eqb_spec (id v) x) as [E|E].
  - exfalso. apply H. now left.
  - apply IH. intros Hin. apply H. now right.
Qed.

Lemma ids_update new prev : ids (handler (UPDATE new) prev) = ids prev.
Proof.
  unfold ids. simpl. rewrite map_map. apply map_ext.
  intros v. destruct (String.eqb_spec (id v) (id new)) as [E|E]; congruence.
Qed.

Lemma update_absent new prev :
  ~ In (id new) (ids prev) -> handler (UPDATE new) prev = prev.
Proof.
  unfold ids. simpl. induction prev as [|v vs IH]; simpl; intros H; [reflexivity|].
  destruct (String.eqb_spec (id v) (id new)) as [E|E].
  - exfalso. apply H. now left.
  - f_equal. apply IH. intros Hin. apply H. now right.
Qed.

Lemma ids_delete old prev :
  ids (handler (DELETE old) prev)
  = filter (fun x => negb (String.eqb x (id old))) (ids prev).
Proof.
  unfold ids. simpl. induction prev as [|v vs IH]; simpl; [reflexivity|].
  destruct (String.eqb (id v) (id old)); simpl; now rewrite IH.
Qed.

Lemma delete_absent old prev :
  ~ In (id old) (ids prev) -> handler (DELETE old) prev = prev.
Proof.
  unfold ids. simpl. induction prev as [|v vs IH]; simpl; intros H; [reflexivity|].
  destruct (String.eqb_spec (id v) (id old)) as [E|E]; simpl.
  - exfalso. apply H. now left.
  - f_equal. apply IH. intros Hin. apply H. now right.
Qed.

Lemma NoDup_filter {A} (f : A -> bool) l : NoDup l -> NoDup (filter f l).
Proof.
  induction 1 as [|a l Hn Hd IH]; simpl; [constructor|].
  destruct (f a); [constructor|]; auto.
  intros Hin. apply Hn. apply filter_In in Hin. tauto.
Qed.

Lemma not_in_ids_delete old prev : ~ In (id old) (ids (handler (DELETE old) prev)).
Proof.
  rewrite ids_delete. intros Hin. apply filter_In in Hin as [_ Hb].
  now rewrite String.eqb_refl in Hb.
Qed.

(** C1, as stated, fails: with [r1 = {id: "v1", match_id: "m1",
    team_voted: "A", user_identifier: "u1"}] delivered twice to the empty
    mirror, the mirror holds two entries with identifier "v1", not one. *)
Lemma duplicate_insert_counterexample :
  ~ (forall prev r r',
        id r = id r' -> ~ In (id r) (ids prev) ->
        count_id (id r) (handler (INSERT r') (handler (INSERT r) prev)) = 1).
Proof.
  intros H.
  specialize (H [] (mkVote "v1" "m1" "A" "u1") (mkVote "v1" "m1" "A" "u1")
                eq_refl (fun F => F)).
  discriminate H.
Qed.

(** C1, amended: an INSERT event appends the new row at the end of the
    collection unconditionally, so each INSERT adds one entry with that
    identifier (two INSERTs with the same identifier add two);
    identifiers are unique after an INSERT exactly when they were unique
    before and the new identifier was absent; UPDATE and DELETE events
    keep identifiers unique. *)
Theorem insert_appends_unconditionally (prev : list VoteData) (new : VoteData) :
  handler (INSERT new) prev = prev ++ [new]
  /\ count_id (id new) (handler (INSERT new) prev) = S (count_id (id new) prev)
  /\ (forall new', id new' = id new ->
        count_id (id new) (handler (INSERT new') (handler (INSERT new) prev))
        = 2 + count_id (id new) prev)
  /\ (NoDup (ids (handler (INSERT new) prev))
      <-> NoDup (ids prev) /\ ~ In (id new) (ids prev))
  /\ (forall r, NoDup (ids prev) ->
        NoDup (ids (handler (UPDATE r) prev))
        /\ NoDup (ids (handler (DELETE r) prev))).
Proof.
  assert (Hone : forall r vs, count_id (id r) (handler (INSERT r) vs)
                              = S (count_id (id r) vs)).
  { intros r vs. simpl. rewrite count_id_app. unfold count_id at 2. simpl.
    rewrite String.eqb_refl. simpl. lia. }
  split; [reflexivity|]. split; [apply Hone|]. split; [|split].
  - intros new' E. rewrite <- E at 1. rewrite Hone, E, Hone. reflexivity.
  - unfold ids. simpl. rewrite map_app. simpl. split.
    + intros H. apply NoDup_remove in H. rewrite app_nil_r in H. exact H.
    + intros [H1 H2].
      pose proof (Add_app (id new) (map id prev) []) as HA.
      rewrite app_nil_r in HA. apply (NoDup_Add HA). split; assumption.
  - intros r H. split.
    + now rewrite ids_update.
    + rewrite ids_delete. now apply NoDup_filter.
Qed.

Lemma insert_appends_unconditionally_witness :
  let v1 := mkVote "v1" "m1" "A" "u1" in
  let v2 := mkVote "v2" "m1" "B" "u2" in
  NoDup (ids [v1]) /\
  NoDup (ids (handler (UPDATE v2) [v1])) /\
  count_id "v2" (handler (INSERT v2) (handler (INSERT v2) [v1])) = 2.
Proof.
  intros v1 v2.
  assert (Hd : NoDup (ids [v1])).
  { repeat constructor. intros []. }
  destruct (insert_appends_unconditionally [v1] v2) as (_ & _ & H2 & _ & H4).
  split; [exact Hd|]. split.
  - exact (proj1 (H4 v2 Hd)).
  - exact (H2 v2 eq_refl).
Defined.

(** C2, as stated, fails: an UPDATE event for [r1] (identifier "v1")
    delivered to the empty mirror leaves it empty; an INSERT would have
    appended the row. *)
Lemma update_absent_counterexample :
  ~ (forall prev new,
        ~ In (id new) (ids prev) ->
        handler (UPDATE new) prev = handler (INSERT new) prev).
Proof.
  intros H.
  specialize (H [] (mkVote "v1" "m1" "A" "u1") (fun F => F)).
  discriminate H.
Qed.

(** C2, amended: an UPDATE event replaces, in place, every entry whose
    identifier equals the new row's identifier by the new row and leaves
    the other entries, the length and the order of identifiers as they
    were; if no entry has that identifier the mirror is unchanged
    (nothing is appended). *)
Theorem update_replaces_in_place (prev : list VoteData) (new : VoteData) :
  length (handler (UPDATE new) prev) = length prev
  /\ (forall i, nth_error (handler (UPDATE new) prev) i
                = option_map (fun v => if String.eqb (id v) (id new) then new else v)
                             (nth_error prev i))
  /\ ids (handler (UPDATE new) prev) = ids prev
  /\ (~ In (id new) (ids prev) -> handler (UPDATE new) prev = prev).
Proof.
  split; [apply length_map|]. split; [|split].
  - intros i. simpl. apply nth_error_map.
  - apply ids_update.
  - apply update_absent.
Qed.

Lemma update_replaces_in_place_witness :
  let v1 := mkVote "v1" "m1" "A" "u1" in
  let v2 := mkVote "v2" "m1" "B" "u2" in
  ~ In (id v2) (ids [v1]) /\ handler (UPDATE v2) [v1] = [v1].
Proof.
  intros v1 v2.
  assert (Hn : ~ In (id v2) (ids [v1])).
  { simpl. intros [E|[]]. discriminate E. }
  split; [exact Hn|].
  exact (proj2 (proj2 (proj2 (update_replaces_in_place [v1] v2))) Hn).
Defined.

(** C6: a DELETE event removes the entries whose identifier equals the
    old row's identifier and keeps all others in order; it is a no-op
    when no entry has that identifier; and whatever steps (events or a
    completed bulk read) are applied between an INSERT for X and a DELETE
    for X, the mirror has no entry with identifier X after the DELETE. *)
Theorem delete_removes_identifier (prev : list VoteData) (old : VoteData) :
  ~ In (id old) (ids (handler (DELETE old) prev))
  /\ (forall v, In v (handler (DELETE old) prev) <-> In v prev /\ id v <> id old)
  /\ ids (handler (DELETE old) prev)
     = filter (fun x => negb (String.eqb x (id old))) (ids prev)
  /\ (~ In (id old) (ids prev) -> handler (DELETE old) prev = prev)
  /\ (forall new between,
        id new = id old ->
        ~ In (id old)
             (ids (handler (DELETE old) (run between (handler (INSERT new) prev))))).
Proof.
  split; [apply not_in_ids_delete|]. split; [|split; [|split]].
  - intros v. simpl. rewrite filter_In, negb_true_iff.
    destruct (String.eqb_spec (id v) (id old)); split; intros [? ?];
      split; congruence.
  - apply ids_delete.
  - apply delete_absent.
  - intros new between _. apply not_in_ids_delete.
Qed.

Lemma delete_removes_identifier_witness :
  let v1 := mkVote "v1" "m1" "A" "u1" in
  let v2 := mkVote "v2" "m1" "B" "u2" in
  handler (DELETE v2) [v1] = [v1]
  /\ ~ In "v2" (ids (handler (DELETE v2)
                      (run [Event (INSERT v2); Fetched [v2; v1]; Event (UPDATE v2)]
                           (handler (INSERT v2) [v1])))).
Proof.
  intros v1 v2.
  destruct (delete_removes_identifier [v1] v2) as (_ & _ & _ & H3 & H4).
  split.
  - apply H3. simpl. intros [E|[]]. discriminate E.
  - exact (H4 v2 [Event (INSERT v2); Fetched [v2; v1]; Event (UPDATE v2)] eq_refl).
Defined.

End MirrorProperties.

Section MatcherProperties.
Import Censor CensorSpec.

Lemma matcher_star_unfold items r prev s :
  matcher (StarClass items :: r) prev s
  = match s with
    | x :: s' =>
        if class_matches items x
        then match matcher (StarClass items :: r) (Some x) s' with
             | Some n => Some (S n)
             | None => matcher r prev s
             end
        else matcher r prev s
    | [] => matcher r prev s
    end.
Proof. destruct s; reflexivity. Qed.

(** Induction over successful runs of the matcher. *)
Lemma matcher_success_ind (P : regex -> option char -> jsstring -> nat -> Prop) :
  (forall prev s, P [] prev s 0) ->
  (forall c r prev x s n,
      canonicalize c = canonicalize x ->
      matcher r (Some x) s = Some n -> P r (Some x) s n ->
      P (Char c :: r) prev (x :: s) (S n)) ->
  (forall items r prev x s n,
      class_matches items x = true ->
      matcher r (Some x) s = Some n -> P r (Some x) s n ->
      P (Class items :: r) prev (x :: s) (S n)) ->
  (forall items r prev x s n,
      class_matches items x = true ->
      matcher (StarClass items :: r) (Some x) s = Some n ->
      P (StarClass items :: r) (Some x) s n ->
      P (StarClass items :: r) prev (x :: s) (S n)) ->
  (forall items r prev s n,
      matcher r prev s = Some n -> P r prev s n ->
      P (StarClass items :: r) prev s n) ->
  (forall r prev s n,
      xorb (IsWordChar prev) (IsWordChar (hd_error s)) = true ->
      matcher r prev s = Some n -> P r prev s n ->
      P (WordBoundary :: r) prev s n) ->
  forall r prev s n, matcher r prev s = Some n -> P r prev s n.
Proof.
  intros Hnil Hchar Hclass Hmore Hdone Hb.
  induction r as [|nd r IH]; intros prev s n H.
  - simpl in H. injection H as <-. apply Hnil.
  - destruct nd as [c|items|items|].
    + simpl in H. destruct s as [|x s]; [discriminate|].
      destruct (N.eqb_spec (canonicalize c) (canonicalize x)) as [E|E]; [|discriminate].
      destruct (matcher r (Some x) s) as [m|] eqn:Hm; [|discriminate].
      injection H as <-. now apply Hchar; auto.
    + simpl in H. destruct s as [|x s]; [discriminate|].
      destruct (class_matches items x) eqn:E; [|discriminate].
      destruct (matcher r (Some x) s) as [m|] eqn:Hm; [|discriminate].
      injection H as <-. now apply Hclass; auto.
    + revert prev n H. induction s as [|x s IHs]; intros prev n H;
        rewrite matcher_star_unfold in H.
      * apply Hdone; auto.
      * destruct (class_matches items x) eqn:E; [|apply Hdone; auto].
        destruct (matcher (StarClass items :: r) (Some x) s) as [m|] eqn:Hm.
        -- injection H as <-. apply Hmore; auto.
        -- apply Hdone; auto.
    + simpl in H.
      destruct (xorb (IsWordChar prev) (IsWordChar (hd_error s))) eqn:E; [|discriminate].
      apply Hb; auto.
Qed.

Lemma matcher_length r prev s n :
  matcher r prev s = Some n -> atoms r <= n <= length s.
Proof.
  revert r prev s n.
  apply (matcher_success_ind (fun r _ s n => atoms r <= n <= length s));
    simpl; intros; lia.
Qed.

Lemma matcher_consumed r prev s n :
  matcher r prev s = Some n ->
  Forall (fun x => existsb (node_accepts x) r = true) (firstn n s).
Proof.
  revert r prev s n.
  apply (matcher_success_ind
           (fun r _ s n => Forall (fun x => existsb (node_accepts x) r = true) (firstn n s)));
    simpl; intros.
  - constructor.
  - constructor.
    + apply N.eqb_eq in H. now rewrite H.
    + eapply Forall_impl; [|exact H1]. simpl. intros a ->. apply orb_true_r.
  - constructor.
    + now rewrite H.
    + eapply Forall_impl; [|exact H1]. simpl. intros a ->. apply orb_true_r.
  - constructor.
    + now rewrite H.
    + exact H1.
  - eapply Forall_impl; [|exact H0]. simpl. intros a ->. apply orb_true_r.
  - exact H1.
Qed.

End MatcherProperties.

Section PassProperties.
Import Censor CensorSpec.
Variable r : regex.

Lemma censor_pass_pending k : forall s prev,
  k <= length s ->
  censor_pass r prev s k
  = repeat star k ++ censor_pass r (prev_at prev s k) (skipn k s) 0.
Proof.
  induction k as [|k IH]; intros s prev Hk; [reflexivity|].
  destruct s as [|c s]; simpl in Hk; [lia|].
  simpl. rewrite IH by lia. do 2 f_equal. now destruct k.
Qed.

Lemma censor_pass_length : forall s prev k,
  length (censor_pass r prev s k) = length s.
Proof.
  induction s as [|c s IH]; intros prev k; [reflexivity|].
  simpl. destruct k; simpl; now rewrite IH.
Qed.

Lemma search_none_inv prev c s :
  search r prev (c :: s) = None ->
  matcher r prev (c :: s) = None /\ search r (Some c) s = None.
Proof.
  simpl. destruct (matcher r prev (c :: s)); [discriminate|].
  destruct (search r (Some c) s) as [[i n]|]; [discriminate|]. now split.
Qed.

Lemma censor_pass_no_match : forall s prev,
  search r prev s = None -> censor_pass r prev s 0 = s.
Proof.
  induction s as [|c s IH]; intros prev H; [reflexivity|].
  apply search_none_inv in H as [Hm Hs].
  simpl censor_pass. rewrite Hm. f_equal. now apply IH.
Qed.

(** Where the search stops: no match before offset [i], a match of length
    [n] at offset [i]. *)
Lemma search_some_inv : forall s prev i n,
  search r prev s = Some (i, n) ->
  i + n <= length s
  /\ matcher r (prev_at prev s i) (skipn i s) = Some n
  /\ (forall j, j < i -> matcher r (prev_at prev s j) (skipn j s) = None).
Proof.
  induction s as [|c s IH]; intros prev i n H.
  - simpl in H. destruct (matcher r prev []) as [m|] eqn:Hm; [|discriminate].
    injection H as <- <-. apply matcher_length in Hm as Hl. simpl in Hl.
    repeat split; [simpl; lia|exact Hm|intros j Hj; lia].
  - simpl in H. destruct (matcher r prev (c :: s)) as [m|] eqn:Hm.
    + injection H as <- <-. apply matcher_length in Hm as Hl.
      repeat split; [simpl in *; lia|exact Hm|intros j Hj; lia].
    + destruct (search r (Some c) s) as [[i' n']|] eqn:Hs; [|discriminate].
      injection H as <- <-. destruct (IH _ _ _ Hs) as (Hl & Hat & Hbefore).
      repeat split.
      * simpl. lia.
      * simpl. destruct i'; exact Hat.
      * intros [|j] Hj; [exact Hm|].
        specialize (Hbefore j ltac:(lia)). simpl. destruct j; exact Hbefore.
Qed.

Lemma censor_pass_match : forall s prev i n,
  search r prev s = Some (i, S n) ->
  exists x rest,
    firstn (S n) (skipn i s) = x :: rest /\ length rest = n /\
    censor_pass r prev s 0
    = firstn i s ++ (x :: repeat star n)
      ++ censor_pass r (char_before s (i + S n)) (skipn (i + S n) s) 0.
Proof.
  induction s as [|c s IH]; intros prev i n H.
  - apply search_some_inv in H as (Hl & _). simpl in Hl. lia.
  - simpl in H. destruct (matcher r prev (c :: s)) as [m|] eqn:Hm.
    + injection H as Hi Hn. subst i m. apply matcher_length in Hm as Hl. simpl in Hl.
      exists c, (firstn n s). split; [reflexivity|]. split.
      * rewrite length_firstn. lia.
      * simpl censor_pass. rewrite Hm. simpl pred.
        rewrite censor_pass_pending by lia. simpl. do 3 f_equal.
        now destruct n.
    + destruct (search r (Some c) s) as [[i' n']|] eqn:Hs; [|discriminate].
      injection H as Hi Hn. subst i n'. destruct (IH _ _ _ Hs) as (x & rest & Hf & Hr & Hp).
      exists x, rest. split; [exact Hf|]. split; [exact Hr|].
      simpl censor_pass. rewrite Hm, Hp. simpl. do 3 f_equal.
      replace (i' + S n) with (S (i' + n)) by lia. reflexivity.
Qed.

End PassProperties.

Section CensorProperties.
Import Censor CensorSpec.

Lemma replace_from_redact r :
  1 <= atoms r ->
  forall k s prev, length s <= k ->
  replace_from r redact prev s = Some (censor_pass r prev s 0).
Proof.
  intros Ha. induction k as [|k IH]; intros s prev Hk.
  - destruct s; [|simpl in Hk; lia]. simp replace_from.
    destruct (matcher r prev []) as [m|] eqn:Hm.
    + apply matcher_length in Hm. simpl in Hm. lia.
    + reflexivity.
  - destruct s as [|c s].
    + apply IH. simpl. lia.
    + simp replace_from.
      destruct (search r prev (c :: s)) as [[i n]|] eqn:Hs.
      * destruct (search_some_inv _ _ _ _ _ Hs) as (Hl & Hm & _).
        apply matcher_length in Hm. destruct n as [|n]; [lia|].
        simp replace_from.
        destruct (censor_pass_match _ _ _ _ _ Hs) as (x & rest & Hf & Hr & Hp).
        rewrite Hf. simpl redact. rewrite Hr.
        rewrite IH.
        -- rewrite Hp. do 3 f_equal.
           replace (i + S n) with (S (i + n)) by lia. reflexivity.
        -- rewrite length_skipn. simpl in Hk. lia.
      * simp replace_from. now rewrite censor_pass_no_match.
Qed.

Lemma replace_redact s R :
  1 <= atoms (source R) ->
  replace s R redact
  = Some (censor_pass (source R) None s 0,
          {| source := source R; lastIndex := 0 |}).
Proof.
  intros Ha. unfold replace.
  now rewrite (replace_from_redact _ Ha (length s)) by lia.
Qed.

Lemma forEach_replace_censor_with : forall ps s,
  forallb redacting ps = true ->
  forEach_replace ps s = Some (censor_with ps s, map rewound ps).
Proof.
  induction ps as [|p ps IH]; intros s H; [reflexivity|].
  simpl in H. apply andb_prop in H as [Hp Hps].
  apply andb_prop in Hp as [Ha _]. apply Nat.leb_le in Ha.
  simpl. rewrite replace_redact by lia. now rewrite IH.
Qed.

Lemma redacting_state ps :
  is_patterns_state ps -> forallb redacting ps = true.
Proof.
  unfold is_patterns_state. intros H.
  assert (E : forall qs, forallb redacting qs
              = forallb (fun t => (2 <=? atoms (snd t))%nat && star_free (snd t))
                        (map rule_text qs)).
  { induction qs as [|q qs IHq]; simpl; [reflexivity|]. now rewrite IHq. }
  rewrite E, H, <- E. vm_compute. reflexivity.
Qed.

Lemma censor_with_state ps s :
  is_patterns_state ps -> censor_with ps s = censor s.
Proof.
  unfold is_patterns_state, censor. intros H.
  assert (E : forall qs t, censor_with qs t
              = fold_left (fun acc u => censor_pass (snd u) None acc 0)
                          (map rule_text qs) t).
  { induction qs as [|q qs IHq]; intros t; simpl; [reflexivity|]. apply IHq. }
  rewrite E, H, <- E. reflexivity.
Qed.

Lemma rewound_state ps :
  is_patterns_state ps -> map rewound ps = patterns.
Proof.
  unfold is_patterns_state. intros H.
  assert (E : forall qs, map rewound qs
              = map (fun t => {| word := fst t;
                                  pattern := {| source := snd t; lastIndex := 0 |} |})
                    (map rule_text qs)).
  { intros qs. rewrite map_map. reflexivity. }
  rewrite E, H, <- E. vm_compute. reflexivity.
Qed.

(** In every state of the rule objects [censorMessage] returns, computes
    the specification's [censor] and leaves every [lastIndex] at 0. *)
Lemma censorMessage_censor ps s :
  is_patterns_state ps -> censorMessage s ps = Some (censor s, patterns).
Proof.
  intros H. unfold censorMessage.
  rewrite forEach_replace_censor_with by now apply redacting_state.
  now rewrite censor_with_state, rewound_state.
Qed.

Lemma patterns_state : is_patterns_state patterns.
Proof. reflexivity. Qed.

Lemma censor_with_length : forall ps s, length (censor_with ps s) = length s.
Proof.
  induction ps as [|p ps IH]; intros s; [reflexivity|].
  unfold censor_with in *. simpl. now rewrite IH, censor_pass_length.
Qed.

Lemma censor_with_no_match : forall ps s,
  existsb (fun p => finds_match p s) ps = false -> censor_with ps s = s.
Proof.
  induction ps as [|p ps IH]; intros s H; [reflexivity|].
  simpl in H. apply orb_false_elim in H as [Hp Hps].
  unfold censor_with in *. simpl. unfold finds_match in Hp.
  destruct (search (source (pattern p)) None s) eqn:Hs; [discriminate|].
  rewrite censor_pass_no_match by exact Hs. now apply IH.
Qed.

End CensorProperties.

Section StarCounting.
Import Censor CensorSpec.

Lemma stars_app a b : stars (a ++ b) = stars a + stars b.
Proof. unfold stars. now rewrite filter_app, length_app. Qed.

Lemma stars_repeat n : stars (repeat star n) = n.
Proof.
  induction n as [|n IH]; [reflexivity|].
  change (repeat star (S n)) with ([star] ++ repeat star n).
  rewrite stars_app, IH. reflexivity.
Qed.

Lemma stars_cons c s : stars (c :: s) = stars [c] + stars s.
Proof. apply (stars_app [c] s). Qed.

Lemma stars_one c : stars [c] <= 1.
Proof. unfold stars. cbn [filter]. destruct (N.eqb star c); cbn [length]; lia. Qed.

Lemma stars_consumed r l :
  star_free r = true ->
  Forall (fun x => existsb (node_accepts x) r = true) l ->
  stars l = 0.
Proof.
  unfold star_free. intros Hf. apply negb_true_iff in Hf.
  induction 1 as [|x l Hx Hl IH]; [reflexivity|].
  rewrite stars_cons, IH. unfold stars. cbn [filter].
  destruct (N.eqb_spec star x) as [E|E]; [|reflexivity].
  subst x. congruence.
Qed.

Lemma censor_pass_stars_ge r : forall s prev k,
  stars s <= stars (censor_pass r prev s k).
Proof.
  induction s as [|c s IH]; intros prev k; [simpl; lia|].
  simpl. destruct k.
  - rewrite (stars_cons c s), (stars_cons c (censor_pass _ _ _ _)).
    specialize (IH (Some c) (match matcher r prev (c :: s) with
                             | Some n => pred n | None => 0 end)). lia.
  - rewrite (stars_cons c s), (stars_cons star (censor_pass _ _ _ _)).
    specialize (IH (Some c) k). pose proof (stars_one c).
    change (stars [star]) with 1. lia.
Qed.

Lemma censor_pass_stars_gt r s prev :
  2 <= atoms r -> star_free r = true ->
  search r prev s <> None ->
  stars s < stars (censor_pass r prev s 0).
Proof.
  intros Ha Hf Hs.
  destruct (search r prev s) as [[i n]|] eqn:E; [clear Hs|congruence].
  destruct (search_some_inv _ _ _ _ _ E) as (Hl & Hm & _).
  pose proof (matcher_length _ _ _ _ Hm) as Hn.
  pose proof (matcher_consumed _ _ _ _ Hm) as Hc.
  destruct n as [|n]; [lia|].
  destruct (censor_pass_match _ _ _ _ _ E) as (x & rest & Hx & Hr & Hp).
  rewrite Hp. rewrite Hx in Hc. inversion Hc as [|? ? _ Hrest]; subst.
  assert (Hsplit : s = firstn i s ++ (x :: rest) ++ skipn (i + S (length rest)) s).
  { rewrite <- Hx. rewrite <- (firstn_skipn i s) at 1. f_equal.
    rewrite <- (firstn_skipn (S (length rest)) (skipn i s)) at 1. f_equal.
    rewrite skipn_skipn. f_equal. lia. }
  rewrite Hsplit at 1.
  rewrite !stars_app, (stars_cons x rest), (stars_cons x (repeat star _)).
  rewrite stars_repeat, (stars_consumed _ _ Hf Hrest).
  pose proof (censor_pass_stars_ge r (skipn (i + S (length rest)) s)
                (char_before s (i + S (length rest))) 0).
  lia.
Qed.

Lemma censor_with_stars_ge : forall ps s, stars s <= stars (censor_with ps s).
Proof.
  induction ps as [|p ps IH]; intros s; [simpl; lia|].
  unfold censor_with in *. simpl.
  specialize (IH (censor_pass (source (pattern p)) None s 0)).
  pose proof (censor_pass_stars_ge (source (pattern p)) s None 0). lia.
Qed.

Lemma censor_with_stars_gt : forall ps s,
  forallb redacting ps = true ->
  existsb (fun p => finds_match p s) ps = true ->
  stars s < stars (censor_with ps s).
Proof.
  induction ps as [|p ps IH]; intros s Hr Hm; [discriminate|].
  simpl in Hr. apply andb_prop in Hr as [Hp Hps].
  apply andb_prop in Hp as [Ha Hf]. apply Nat.leb_le in Ha.
  change (censor_with (p :: ps) s)
    with (censor_with ps (censor_pass (source (pattern p)) None s 0)).
  simpl in Hm. unfold finds_match at 1 in Hm.
  destruct (search (source (pattern p)) None s) eqn:Hs.
  - assert (Hgt : stars s < stars (censor_pass (source (pattern p)) None s 0)).
    { apply censor_pass_stars_gt; auto. congruence. }
    pose proof (censor_with_stars_ge ps (censor_pass (source (pattern p)) None s 0)).
    lia.
  - rewrite censor_pass_no_match by exact Hs. apply IH; auto.
Qed.

(** A text is a fixed point of the passes exactly when no rule finds a
    match in it. *)
Lemma censor_with_fixed_point ps s :
  forallb redacting ps = true ->
  censor_with ps s = s <-> existsb (fun p => finds_match p s) ps = false.
Proof.
  intros Hr. split.
  - intros Heq. destruct (existsb _ ps) eqn:E; [|reflexivity].
    pose proof (censor_with_stars_gt ps s Hr E) as Hgt. rewrite Heq in Hgt. lia.
  - apply censor_with_no_match.
Qed.

End StarCounting.

Section DetectProperties.
Import Censor CensorSpec.

Lemma test_rewound R s :
  lastIndex R = 0 ->
  fst (test R s) = match search (source R) None s with
                   | Some _ => true
                   | None => false
                   end.
Proof.
  intros H. unfold test, exec. rewrite H. simpl.
  destruct (search (source R) None s) as [[i n]|]; reflexivity.
Qed.

(** With every [lastIndex] at 0, as right after loading the module, one
    call answers whether some rule finds a match. *)
Lemma some_test_rewound s : forall ps,
  forallb (fun p => lastIndex (pattern p) =? 0) ps = true ->
  fst (some_test ps s) = existsb (fun p => finds_match p s) ps.
Proof.
  induction ps as [|p ps IH]; intros H; [reflexivity|].
  simpl in H. apply andb_prop in H as [Hp Hps]. apply Nat.eqb_eq in Hp.
  simpl. pose proof (test_rewound (pattern p) s Hp) as Ht.
  unfold finds_match at 1. destruct (test (pattern p) s) as [[|] R'];
    simpl in Ht; rewrite <- Ht; simpl; [reflexivity|].
  specialize (IH Hps). destruct (some_test ps s) as [b ps'']. exact IH.
Qed.

Lemma containsProfanity_rewound s :
  fst (containsProfanity s patterns) = detect s.
Proof. apply some_test_rewound. vm_compute. reflexivity. Qed.

(** The empty message tests false in every state of the rule objects. *)
Lemma some_test_empty : forall ps,
  forallb redacting ps = true -> fst (some_test ps []) = false.
Proof.
  induction ps as [|p ps IH]; intros H; [reflexivity|].
  simpl in H. apply andb_prop in H as [Hp Hps].
  apply andb_prop in Hp as [Ha _]. apply Nat.leb_le in Ha.
  assert (Ht : fst (test (pattern p) []) = false).
  { unfold test, exec. destruct (lastIndex (pattern p)) as [|li]; simpl; [|reflexivity].
    destruct (matcher (source (pattern p)) None []) as [m|] eqn:Hm; [|reflexivity].
    apply matcher_length in Hm. simpl in Hm. lia. }
  simpl. destruct (test (pattern p) []) as [[|] R']; simpl in Ht; [discriminate|].
  specialize (IH Hps). destruct (some_test ps []) as [b ps'']. exact IH.
Qed.

Lemma containsProfanity_empty ps :
  is_patterns_state ps -> fst (containsProfanity [] ps) = false.
Proof. intros H. apply some_test_empty. now apply redacting_state. Qed.

End DetectProperties.

Section FilterClaims.
Import Censor CensorSpec.

(** C3: in every state of the rule objects, [censorMessage] returns the
    text in which, rule after rule in list order, every non-overlapping
    match is replaced by its first character followed by one asterisk per
    remaining matched character ([censor]); it returns its input when no
    rule finds a match; censorMessage("this is sh1t") = "this is s***" and
    censorMessage("") = "". *)
Theorem censorMessage_redacts_matches (ps : list rule) (message : jsstring) :
  is_patterns_state ps ->
  censorMessage message ps = Some (censor message, patterns)
  /\ (detect message = false -> censorMessage message ps = Some (message, patterns))
  /\ censorMessage (str "this is sh1t") ps = Some (str "this is s***", patterns)
  /\ censorMessage (str "") ps = Some (str "", patterns).
Proof.
  intros H. rewrite !censorMessage_censor by exact H.
  split; [reflexivity|]. split; [|split].
  - intros Hd. do 2 f_equal. now apply (censor_with_no_match patterns).
  - vm_compute. reflexivity.
  - reflexivity.
Qed.

Lemma censorMessage_redacts_matches_witness :
  is_patterns_state patterns
  /\ detect (str "well played") = false
  /\ censorMessage (str "well played") patterns = Some (str "well played", patterns).
Proof.
  assert (Hd : detect (str "well played") = false) by (vm_compute; reflexivity).
  split; [exact patterns_state|]. split; [exact Hd|].
  exact (proj1 (proj2 (censorMessage_redacts_matches
                         patterns (str "well played") patterns_state)) Hd).
Defined.

(** C10: [censorMessage] returns a text with exactly as many characters
    (code units) as its input. *)
Theorem censorMessage_preserves_length (ps : list rule) (message : jsstring) :
  is_patterns_state ps ->
  exists out ps',
    censorMessage message ps = Some (out, ps') /\ length out = length message.
Proof.
  intros H. exists (censor message), patterns. split.
  - now apply censorMessage_censor.
  - apply (censor_with_length patterns).
Qed.

Lemma censorMessage_preserves_length_witness :
  is_patterns_state patterns
  /\ exists out ps',
       censorMessage (str "f u c k this sh!t") patterns = Some (out, ps')
       /\ length out = 17.
Proof.
  split; [exact patterns_state|].
  exact (censorMessage_preserves_length patterns (str "f u c k this sh!t")
                                        patterns_state).
Defined.

(** C8, as stated, fails at x = "twa twat": censorMessage(x) = "twa t***",
    whose only asterisk run "***" contains no banned word, yet
    censorMessage("twa t***") = "t*******": the asterisk
    after "twa t" is the word boundary that the candidate "twa t" of rule
    "twat" lacked in x. *)
Lemma censor_twice_counterexample :
  ~ (forall x y z,
        censorMessage x patterns = Some (y, patterns) ->
        censorMessage y patterns = Some (z, patterns) ->
        (forall run w, In run (asterisk_runs y) -> In w BANNED_WORDS ->
                       is_substring w run = false) ->
        z = y).
Proof.
  intros H.
  specialize (H (str "twa twat") (str "twa t***") (str "t*******")).
  assert (Hruns : forall run w,
             In run (asterisk_runs (str "twa t***")) -> In w BANNED_WORDS ->
             is_substring w run = false).
  { intros run w Hrun Hw.
    assert (Hall : forallb (fun w' => negb (is_substring w' (str "***"))) BANNED_WORDS
                   = true) by (vm_compute; reflexivity).
    rewrite forallb_forall in Hall. specialize (Hall w Hw).
    destruct Hrun as [<-|[]]. now apply negb_true_iff in Hall. }
  specialize (H ltac:(vm_compute; reflexivity) ltac:(vm_compute; reflexivity) Hruns).
  discriminate H.
Qed.

(** C8, amended: censoring the output of [censorMessage] again returns it
    unchanged exactly when no rule's matcher finds a match in that
    output. *)
Theorem censorMessage_idempotent_iff (ps : list rule) (x : jsstring) :
  is_patterns_state ps ->
  exists y z,
    censorMessage x ps = Some (y, patterns)
    /\ censorMessage y patterns = Some (z, patterns)
    /\ (z = y <-> detect y = false).
Proof.
  intros H. exists (censor x), (censor (censor x)).
  split; [now apply censorMessage_censor|].
  split; [apply censorMessage_censor, patterns_state|].
  apply (censor_with_fixed_point patterns).
  apply redacting_state, patterns_state.
Qed.

Lemma censorMessage_idempotent_iff_witness :
  is_patterns_state patterns
  /\ exists y z,
       censorMessage (str "this is sh1t") patterns = Some (y, patterns)
       /\ censorMessage y patterns = Some (z, patterns)
       /\ (z = y <-> detect y = false).
Proof.
  split; [exact patterns_state|].
  exact (censorMessage_idempotent_iff patterns (str "this is sh1t") patterns_state).
Defined.

(** C7, at the failing input: after one call containsProfanity("shit"),
    which leaves the [lastIndex] of rule "shit" at 4, the rule's matcher
    still finds a match in "shit" but a further call
    containsProfanity("shit") returns false. *)
Theorem containsProfanity_misses_match_after_hit :
  let ps1 := snd (containsProfanity (str "shit") patterns) in
  map (fun p => lastIndex (pattern p)) (firstn 2 ps1) = [0; 4]
  /\ is_patterns_state ps1
  /\ detect (str "shit") = true
  /\ fst (containsProfanity (str "shit") ps1) = false.
Proof. vm_compute. repeat split. Qed.

(** C9, at the failing input: two consecutive calls
    containsProfanity("shit"); containsProfanity("shit") return true and
    then false. *)
Theorem containsProfanity_second_call_differs :
  let first := containsProfanity (str "shit") patterns in
  let second := containsProfanity (str "shit") (snd first) in
  fst first = true /\ fst second = false.
Proof. vm_compute. split; reflexivity. Qed.

End FilterClaims.

Section VotingProperties.
Import Mirror Voting.

Lemma handleVote_ready team c :
  userIdentifier c <> "" -> isVoting c = false ->
  handleVote team c
  = match find (fun v => String.eqb (user_identifier v) (userIdentifier c)) (votes c) with
    | Some existingVote =>
        if String.eqb (team_voted existingVote) team then (None, c)
        else (Some (Update (id existingVote) team), set_userVote team c)
    | None => (Some (Insert (matchId c) team (userIdentifier c)), set_userVote team c)
    end.
Proof.
  intros Hu Hv. unfold handleVote. rewrite Hv.
  destruct (String.eqb_spec (userIdentifier c) ""); [contradiction|reflexivity].
Qed.

Lemma existsb_filter_nil {A} (f : A -> bool) l :
  filter f l = [] -> existsb f l = false.
Proof.
  induction l as [|a l IH]; simpl; [reflexivity|].
  destruct (f a); [discriminate|]. exact IH.
Qed.

Lemma existsb_id_fresh fresh table :
  ~ In fresh (ids table) -> existsb (fun v => String.eqb (id v) fresh) table = false.
Proof.
  unfold ids. induction table as [|v vs IH]; simpl; intros H; [reflexivity|].
  destruct (String.eqb_spec (id v) fresh) as [E|E]; simpl.
  - exfalso. apply H. now left.
  - apply IH. intros Hin. apply H. now right.
Qed.


(** Re-labelling the team of the row [fresh] leaves the rows of a pair
    that has none in a table not holding [fresh]. *)
Lemma rows_of_update_other m u fresh team table :
  ~ In fresh (ids table) -> rows_of m u table = [] ->
  rows_of m u (map (fun v => if String.eqb (id v) fresh then set_team team v else v) table)
  = [].
Proof.
  unfold rows_of, ids. induction table as [|v vs IH]; simpl; intros Hf Hr; [reflexivity|].
  destruct (String.eqb_spec (id v) fresh) as [E|E].
  - exfalso. apply Hf. now left.
  - destruct (same_pair m u v); [discriminate|].
    apply IH; [|exact Hr]. intros Hin. apply Hf. now right.
Qed.


Lemma existsb_match_exists m ms : In m ms -> existsb (String.eqb m) ms = true.
Proof.
  intros H. apply existsb_exists. exists m. split; [exact H|apply String.eqb_refl].
Qed.



(** The first cast of a voter without a row, whose match exists: the
    insert is accepted. *)
Lemma first_cast w team fresh :
  first_vote_ahead w -> ~ In fresh (ids (remote w)) ->
  cast team fresh w
  = ({| matches := matches w;
        remote := remote w
                  ++ [mkVote fresh (matchId (comp w)) team (userIdentifier (comp w))];
        comp := set_userVote team (comp w) |},
     [INSERT (mkVote fresh (matchId (comp w)) team (userIdentifier (comp w)))]).
Proof.
  destruct w as [ms table c]. unfold first_vote_ahead. cbn [matches remote comp].
  intros (Hu & Hv & Hrows & Hfind & Hfk) Hfresh.
  unfold cast. cbn [matches remote comp].
  rewrite (handleVote_ready team c Hu Hv), Hfind. cbn [apply_write].
  rewrite (existsb_match_exists _ _ Hfk), (existsb_filter_nil _ _ Hrows),
    (existsb_id_fresh _ _ Hfresh).
  reflexivity.
Qed.

(** The second cast when the mirror has not seen the first: the insert
    is issued again and rejected. *)
Lemma cast_twice_stale w teamA teamB fresh1 fresh2 :
  first_vote_ahead w -> ~ In fresh1 (ids (remote w)) ->
  cast_twice teamA teamB fresh1 fresh2 false w
  = {| matches := matches w;
       remote := remote w
                 ++ [mkVote fresh1 (matchId (comp w)) teamA (userIdentifier (comp w))];
       comp := set_userVote teamB (set_userVote teamA (comp w)) |}.
Proof.
  intros Hw Hfresh. unfold cast_twice. rewrite (first_cast w teamA fresh1 Hw Hfresh).
  destruct w as [ms table c]. unfold first_vote_ahead in Hw. cbn [matches remote comp] in *.
  destruct Hw as (Hu & Hv & Hrows & Hfind & Hfk).
  unfold cast. cbn [matches remote comp].
  rewrite (handleVote_ready teamB (set_userVote teamA c)) by assumption.
  cbn [votes set_userVote userIdentifier matchId]. rewrite Hfind. cbn [apply_write].
  rewrite existsb_app. cbn [existsb]. unfold same_pair at 2.
  cbn [match_id user_identifier]. rewrite !String.eqb_refl. cbn [andb orb].
  rewrite orb_true_r, orb_true_r. reflexivity.
Qed.


End VotingProperties.

Section ChatProperties.
Import Chat.

Lemma insert_by_time_perm m l : Permutation (insert_by_time m l) (m :: l).
Proof.
  induction l as [|x l IH]; simpl; [reflexivity|].
  destruct (created_at m <? created_at x)%N; [reflexivity|].
  rewrite IH. apply perm_swap.
Qed.

Lemma order_by_created_at_perm l : Permutation (order_by_created_at l) l.
Proof.
  unfold order_by_created_at.
  assert (G : forall acc, Permutation (fold_left (fun a m => insert_by_time m a) l acc)
                                      (acc ++ l)).
  { induction l as [|x l IH]; intros acc; simpl.
    - now rewrite app_nil_r.
    - rewrite IH, insert_by_time_perm. apply Permutation_middle. }
  apply (G []).
Qed.

Lemma insert_by_time_sorted m l :
  StronglySorted older l -> StronglySorted older (insert_by_time m l).
Proof.
  induction 1 as [|x l Hs IH Hx]; simpl.
  - repeat constructor.
  - destruct (N.ltb_spec (created_at m) (created_at x)) as [Hlt|Hge].
    + constructor; [constructor; assumption|].
      constructor; [unfold older; lia|].
      eapply Forall_impl; [|exact Hx]. unfold older. intros a Ha. lia.
    + constructor; [exact IH|].
      apply (Permutation_Forall (Permutation_sym (insert_by_time_perm m l))).
      constructor; [exact Hge|exact Hx].
Qed.

Lemma order_by_created_at_sorted l : StronglySorted older (order_by_created_at l).
Proof.
  unfold order_by_created_at.
  assert (G : forall acc, StronglySorted older acc ->
                          StronglySorted older (fold_left (fun a m => insert_by_time m a) l acc)).
  { induction l as [|x l IH]; intros acc Ha; simpl; [exact Ha|].
    apply IH. now apply insert_by_time_sorted. }
  apply G. constructor.
Qed.

Lemma sorted_app_inv (l1 l2 : list ChatMessage) :
  StronglySorted older (l1 ++ l2) ->
  StronglySorted older l1
  /\ forall a b, In a l1 -> In b l2 -> older a b.
Proof.
  induction l1 as [|x l1 IH]; simpl; intros H.
  - split; [constructor|]. intros a b [].
  - inversion H as [|? ? Hs Hx]; subst. destruct (IH Hs) as [H1 H2]. split.
    + constructor; [exact H1|]. rewrite Forall_forall in *.
      intros a Ha. apply Hx. apply in_or_app. now left.
    + intros a b [<-|Ha] Hb.
      * rewrite Forall_forall in Hx. apply Hx. apply in_or_app. now right.
      * now apply H2.
Qed.

(** C5, as stated, fails: with 101 messages of sport "cricket" in the
    table (created at times 1 to 101), the read returns 100 rows and the
    newest message is not among them. *)
Lemma bulk_read_limit_counterexample :
  ~ (forall table sportId m,
        In m table -> sport_id m = sportId -> In m (query table sportId)).
Proof.
  intros H.
  pose (m := mkMessage (string_of_list_ascii (repeat "m"%char 101)) "cricket"
                       "hi" "fan" 101%N).
  specialize (H (sample_table "cricket" 101) "cricket" m).
  assert (Hin : In m (sample_table "cricket" 101)).
  { unfold sample_table. apply in_map_iff. exists 101. split; [reflexivity|].
    apply in_seq. lia. }
  specialize (H Hin eq_refl).
  assert (Hall : forallb (fun d => (created_at d <=? 100)%N)
                         (query (sample_table "cricket" 101) "cricket") = true)
    by (vm_compute; reflexivity).
  rewrite forallb_forall in Hall. specialize (Hall m H). discriminate Hall.
Qed.

(** C5, amended: the initial read of the messages returns the first 100
    rows of the parent key in chronological order of creation, or all of
    them when the key has fewer: the number of returned rows is the smaller
    of 100 and the number of rows of the key, the returned rows are rows of
    the key in chronological order, and the rows of the key that are left
    out are no older than the returned ones (none is left out when the key
    has at most 100 rows).  On success the local collection is replaced
    wholesale by the returned rows in the returned order; a failed read
    leaves it as it was. *)
Theorem fetchMessages_replaces_with_first_100
  (table : list ChatMessage) (sportId : string) (messages : list ChatMessage) :
  let data := query table sportId in
  fetchMessages (Some data) messages = data
  /\ fetchMessages None messages = messages
  /\ length data <= 100
  /\ length data = Nat.min 100 (length (rows_for sportId table))
  /\ StronglySorted older data
  /\ (forall m, In m data -> In m table /\ sport_id m = sportId)
  /\ exists rest,
       Permutation (data ++ rest) (rows_for sportId table)
       /\ (forall d m, In d data -> In m rest -> (created_at d <= created_at m)%N)
       /\ (length (rows_for sportId table) <= 100 -> rest = []).
Proof.
  intros data. subst data. unfold query.
  set (rows := rows_for sportId table).
  pose proof (order_by_created_at_perm rows) as Hperm.
  pose proof (order_by_created_at_sorted rows) as Hsorted.
  rewrite <- (firstn_skipn 100 (order_by_created_at rows)) in Hsorted.
  destruct (sorted_app_inv _ _ Hsorted) as [Hfirst Hcross].
  split; [reflexivity|]. split; [reflexivity|].
  split; [apply firstn_le_length|].
  split; [now rewrite length_firstn, (Permutation_length Hperm)|].
  split; [exact Hfirst|]. split.
  - intros m Hm.
    assert (Hm' : In m (order_by_created_at rows)).
    { rewrite <- (firstn_skipn 100). apply in_or_app. now left. }
    clear Hm. apply (Permutation_in _ Hperm) in Hm'. rename Hm' into Hm. unfold rows, rows_for in Hm.
    apply filter_In in Hm as [Hin Hs]. now apply String.eqb_eq in Hs.
  - exists (skipn 100 (order_by_created_at rows)). split; [|split].
    + now rewrite firstn_skipn.
    + exact Hcross.
    + intros Hlen. apply skipn_all2.
      now rewrite (Permutation_length Hperm).
Qed.

Lemma fetchMessages_replaces_with_first_100_witness :
  let table := sample_table "cricket" 3 ++ sample_table "chess" 2 in
  length (rows_for "cricket" table) <= 100
  /\ Permutation (query table "cricket") (rows_for "cricket" table)
  /\ fetchMessages (Some (query table "cricket")) [] = query table "cricket".
Proof.
  intros table.
  assert (Hlen : length (rows_for "cricket" table) <= 100) by (vm_compute; lia).
  destruct (fetchMessages_replaces_with_first_100 table "cricket" [])
    as (Hset & _ & _ & _ & _ & _ & rest & Hperm & _ & Hrest).
  split; [exact Hlen|]. split; [|exact Hset].
  rewrite (Hrest Hlen), app_nil_r in Hperm. exact Hperm.
Defined.

End ChatProperties.

Section MirrorComposition.
Import Mirror Voting Tally.

(** X1: an INSERT followed by the DELETE of the same identifier acts like
    the DELETE alone, and gives the mirror back when the identifier was not
    in it. *)
Theorem insert_then_delete (prev : list VoteData) (new old : VoteData) :
  id old = id new ->
  handler (DELETE old) (handler (INSERT new) prev) = handler (DELETE old) prev
  /\ (~ In (id new) (ids prev) ->
      handler (DELETE old) (handler (INSERT new) prev) = prev).
Proof.
  intros E.
  assert (H : handler (DELETE old) (handler (INSERT new) prev)
              = handler (DELETE old) prev).
  { simpl. rewrite filter_app. simpl. rewrite E, String.eqb_refl. simpl.
    apply app_nil_r. }
  split; [exact H|].
  intros Hn. rewrite H. apply delete_absent. now rewrite E.
Qed.

Lemma insert_then_delete_witness :
  let v1 := mkVote "v1" "m1" "A" "u1" in
  let v2 := mkVote "v2" "m1" "B" "u2" in
  handler (DELETE v2) (handler (INSERT v2) [v1]) = [v1].
Proof.
  intros v1 v2.
  apply (proj2 (insert_then_delete [v1] v2 v2 eq_refl)).
  simpl. intros [E|[]]. discriminate E.
Defined.

(** X2: of two UPDATE events for one identifier the later one wins (so an
    UPDATE delivered twice counts once), a DELETE delivered twice counts
    once, and an UPDATE that arrives after the DELETE of its row does not
    bring the row back. *)
Theorem later_event_wins (prev : list VoteData) (r1 r2 : VoteData) :
  id r1 = id r2 ->
  handler (UPDATE r2) (handler (UPDATE r1) prev) = handler (UPDATE r2) prev
  /\ handler (DELETE r2) (handler (DELETE r1) prev) = handler (DELETE r1) prev
  /\ handler (UPDATE r2) (handler (DELETE r1) prev) = handler (DELETE r1) prev.
Proof.
  intros E. split; [|split].
  - simpl. rewrite map_map. apply map_ext. intros v.
    destruct (String.eqb_spec (id v) (id r1)) as [E1|E1].
    + rewrite <- E, String.eqb_refl.
      destruct (String.eqb_spec (id v) (id r1)); [reflexivity|contradiction].
    + reflexivity.
  - rewrite <- (delete_absent r2 (handler (DELETE r1) prev)) at 2; [reflexivity|].
    rewrite <- E. apply not_in_ids_delete.
  - apply update_absent. rewrite <- E. apply not_in_ids_delete.
Qed.

Lemma later_event_wins_witness :
  let a := mkVote "v1" "m1" "A" "u1" in
  let b := mkVote "v1" "m1" "B" "u1" in
  handler (UPDATE b) (handler (UPDATE a) [a]) = [b]
  /\ handler (UPDATE b) (handler (DELETE a) [a]) = [].
Proof.
  intros a b.
  destruct (later_event_wins [a] a b eq_refl) as (H1 & _ & H3).
  split; [exact H1|exact H3].
Defined.

(** X3: an event only touches the entries that carry the identifier of
    its row: the entries with any other identifier are the same, in the same
    order, before and after. *)
Theorem event_leaves_other_rows (p : payload) (prev : list VoteData) :
  filter (fun v => negb (String.eqb (id v) (id (row_of p)))) (handler p prev)
  = filter (fun v => negb (String.eqb (id v) (id (row_of p)))) prev.
Proof.
  destruct p as [new|new|old]; simpl.
  - rewrite filter_app. simpl. rewrite String.eqb_refl. simpl. apply app_nil_r.
  - induction prev as [|v vs IH]; simpl; [reflexivity|].
    destruct (String.eqb_spec (id v) (id new)) as [E|E]; simpl.
    + rewrite String.eqb_refl. simpl. exact IH.
    + destruct (String.eqb_spec (id v) (id new)); [contradiction|].
      simpl. now rewrite IH.
  - induction prev as [|v vs IH]; simpl; [reflexivity|].
    destruct (String.eqb (id v) (id old)) eqn:E; simpl; [exact IH|].
    rewrite E. simpl. now rewrite IH.
Qed.

Lemma votes_for_update_absent team new prev :
  ~ In (id new) (ids prev) ->
  votes_for team (handler (UPDATE new) prev) = votes_for team prev.
Proof. intros H. now rewrite update_absent. Qed.

(** X4: with unique identifiers in the mirror, an UPDATE event for a row
    the mirror holds moves exactly one vote: for every team, the count
    loses the old row's vote and gains the new row's. *)
Theorem update_moves_one_vote (prev : list VoteData) (old new : VoteData)
  (team : string) :
  NoDup (ids prev) -> In old prev -> id new = id old ->
  votes_for team (handler (UPDATE new) prev)
  + (if String.eqb (team_voted old) team then 1 else 0)
  = votes_for team prev
    + (if String.eqb (team_voted new) team then 1 else 0).
Proof.
  intros Hd Hin E. induction prev as [|v vs IH]; [destruct Hin|].
  unfold ids in Hd. simpl in Hd. inversion Hd as [|? ? Hv Hvs]; subst.
  destruct Hin as [->|Hin].
  - change (handler (UPDATE new) (old :: vs))
      with ((if String.eqb (id old) (id new) then new else old)
              :: handler (UPDATE new) vs).
    rewrite E, String.eqb_refl.
    rewrite update_absent by (rewrite E; exact Hv).
    unfold votes_for. cbn [filter].
    destruct (String.eqb (team_voted new) team),
             (String.eqb (team_voted old) team); cbn [length]; lia.
  - assert (Hne : id v <> id new).
    { intros Heq. apply Hv. rewrite Heq, E. now apply in_map. }
    change (handler (UPDATE new) (v :: vs))
      with ((if String.eqb (id v) (id new) then new else v)
              :: handler (UPDATE new) vs).
    destruct (String.eqb_spec (id v) (id new)); [contradiction|].
    specialize (IH Hvs Hin). unfold votes_for in *. cbn [filter].
    destruct (String.eqb (team_voted v) team); cbn [length]; lia.
Qed.

Lemma update_moves_one_vote_witness :
  let a := mkVote "v1" "m1" "Lions" "u1" in
  let b := mkVote "v2" "m1" "Lions" "u2" in
  let a' := mkVote "v1" "m1" "Tigers" "u1" in
  teamAVotes (handler (UPDATE a') [a; b]) "Lions" + 1 = teamAVotes [a; b] "Lions" + 0.
Proof.
  intros a b a'.
  apply (update_moves_one_vote [a; b] a a' "Lions").
  - repeat constructor; simpl; intuition discriminate.
  - now left.
  - reflexivity.
Defined.

(** X5: the tally counts no vote twice when the two teams differ, so
    [totalVotes] is at most the number of rows in the mirror; when both
    buttons carry the same team name every vote for it is counted twice. *)
Theorem totalVotes_bound (votes : list VoteData) (teamA teamB : string) :
  (teamA <> teamB -> totalVotes votes teamA teamB <= length votes)
  /\ totalVotes votes teamA teamA = 2 * teamAVotes votes teamA.
Proof.
  split.
  - intros Hne. unfold totalVotes, teamAVotes, teamBVotes, votes_for.
    induction votes as [|v vs IH]; simpl; [lia|].
    destruct (String.eqb_spec (team_voted v) teamA) as [EA|EA],
             (String.eqb_spec (team_voted v) teamB) as [EB|EB]; simpl; try lia.
    congruence.
  - unfold totalVotes, teamAVotes, teamBVotes. lia.
Qed.

Lemma totalVotes_bound_witness :
  totalVotes [mkVote "v1" "m1" "Lions" "u1"; mkVote "v2" "m1" "Bears" "u2"]
             "Lions" "Tigers" <= 2.
Proof.
  apply (proj1 (totalVotes_bound
                  [mkVote "v1" "m1" "Lions" "u1"; mkVote "v2" "m1" "Bears" "u2"]
                  "Lions" "Tigers")).
  discriminate.
Defined.

End MirrorComposition.

Section FilterShape.
Import Censor CensorSpec FilterFacts.

Lemma censor_pass_kept_or_star r : forall s prev k,
  Forall2 kept_or_star s (censor_pass r prev s k).
Proof.
  induction s as [|c s IH]; intros prev k; [constructor|].
  simpl. destruct k; constructor; auto; [now left|now right].
Qed.

Lemma kept_or_star_trans s t u :
  Forall2 kept_or_star s t -> Forall2 kept_or_star t u -> Forall2 kept_or_star s u.
Proof.
  intros H. revert u. induction H as [|x y s t Hxy Hst IH]; intros u Hu.
  - inversion Hu. constructor.
  - inversion Hu as [|? z ? u' Hyz Htu]; subst. constructor; [|now apply IH].
    destruct Hyz as [-> | ->]; [exact Hxy|now right].
Qed.

Lemma censor_with_kept_or_star : forall ps s,
  Forall2 kept_or_star s (censor_with ps s).
Proof.
  induction ps as [|p ps IH]; intros s.
  - simpl. induction s; constructor; auto. now left.
  - change (censor_with (p :: ps) s)
      with (censor_with ps (censor_pass (source (pattern p)) None s 0)).
    eapply kept_or_star_trans; [apply censor_pass_kept_or_star|apply IH].
Qed.

Lemma censor_with_head : forall ps s,
  hd_error (censor_with ps s) = hd_error s.
Proof.
  induction ps as [|p ps IH]; intros s; [reflexivity|].
  change (censor_with (p :: ps) s)
    with (censor_with ps (censor_pass (source (pattern p)) None s 0)).
  rewrite IH. now destruct s.
Qed.

Lemma atoms_app a b : atoms (a ++ b) = atoms a + atoms b.
Proof.
  induction a as [|nd a IH]; [reflexivity|].
  destruct nd; simpl; rewrite IH; reflexivity.
Qed.

Lemma atoms_join items : forall pieces,
  Forall (fun nd => atoms [nd] = 1) pieces ->
  atoms (join (StarClass items) pieces) = length pieces.
Proof.
  induction pieces as [|nd pieces IH]; intros H; [reflexivity|].
  inversion H as [|? ? Hnd Hrest]; subst.
  destruct pieces as [|nd' pieces].
  - exact Hnd.
  - change (join (StarClass items) (nd :: nd' :: pieces))
      with ([nd] ++ StarClass items :: join (StarClass items) (nd' :: pieces)).
    rewrite atoms_app, Hnd.
    change (atoms (StarClass items :: join (StarClass items) (nd' :: pieces)))
      with (atoms (join (StarClass items) (nd' :: pieces))).
    rewrite (IH Hrest). reflexivity.
Qed.

Lemma atoms_createPattern w : atoms (source (createPattern w)) = length w.
Proof.
  unfold createPattern. cbn [source]. cbn [atoms].
  rewrite atoms_app. cbn [atoms]. rewrite atoms_join.
  - rewrite length_map. lia.
  - apply Forall_forall. intros nd Hin. apply in_map_iff in Hin as (c & <- & _).
    destruct (leetMap (toLowerCase c)); reflexivity.
Qed.

(** The passes of rules that all consume a character never throw. *)
Lemma forEach_replace_total : forall ps s,
  forallb (fun p => 1 <=? atoms (source (pattern p))) ps = true ->
  forEach_replace ps s = Some (censor_with ps s, map rewound ps).
Proof.
  induction ps as [|p ps IH]; intros s H; [reflexivity|].
  cbn [forallb] in H. apply andb_prop in H as [Ha Hps]. apply Nat.leb_le in Ha.
  simpl. rewrite replace_redact by lia. now rewrite IH.
Qed.

Lemma rules_of_rewound words : map rewound (rules_of words) = rules_of words.
Proof. unfold rules_of. rewrite map_map. reflexivity. Qed.

Lemma rules_of_consume words :
  forallb plain_word words = true ->
  forallb (fun p => 1 <=? atoms (source (pattern p))) (rules_of words) = true.
Proof.
  unfold rules_of. induction words as [|w ws IH]; intros H; [reflexivity|].
  cbn [forallb] in H. apply andb_prop in H as [Hw Hws].
  cbn [map forallb]. rewrite (IH Hws), andb_true_r.
  cbn [pattern]. rewrite atoms_createPattern.
  unfold plain_word in Hw. apply andb_prop in Hw as [Hw _].
  destruct w; [discriminate|reflexivity].
Qed.

(** X6: in every state of the rule objects, [censorMessage] only ever
    overwrites characters with asterisks: the output has, at every
    position, the input's character or an asterisk, and its first character
    is the input's first character. *)
Theorem censorMessage_only_writes_asterisks (ps : list rule) (message : jsstring) :
  is_patterns_state ps ->
  exists out ps',
    censorMessage message ps = Some (out, ps')
    /\ Forall2 (fun x y => y = x \/ y = star) message out
    /\ hd_error out = hd_error message.
Proof.
  intros H. exists (censor message), patterns.
  split; [now apply censorMessage_censor|]. split.
  - apply (censor_with_kept_or_star patterns).
  - apply (censor_with_head patterns).
Qed.

Lemma censorMessage_only_writes_asterisks_witness :
  exists out ps',
    censorMessage (str "sh1t happens") patterns = Some (out, ps')
    /\ Forall2 (fun x y => y = x \/ y = star) (str "sh1t happens") out
    /\ hd_error out = Some (code "s").
Proof.
  exact (censorMessage_only_writes_asterisks patterns (str "sh1t happens")
                                             patterns_state).
Defined.

(** X7: a match of the pattern [createPattern] builds for a word of
    letters lies within the text and spans at least as many characters as
    the word has; in particular it is never empty. *)
Theorem match_spans_word (w : jsstring) (prev : option char) (s : jsstring)
  (i n : nat) :
  plain_word w = true ->
  search (source (createPattern w)) prev s = Some (i, n) ->
  length w <= n /\ 1 <= n /\ i + n <= length s.
Proof.
  intros Hw Hs.
  destruct (search_some_inv _ _ _ _ _ Hs) as (Hl & Hm & _).
  apply matcher_length in Hm. rewrite atoms_createPattern in Hm.
  unfold plain_word in Hw. apply andb_prop in Hw as [Hw _].
  destruct w; [discriminate|]. simpl in *. lia.
Qed.

Lemma match_spans_word_witness :
  search (source (createPattern (str "hell"))) None (str "oh h.e.l.l no") = Some (3, 7)
  /\ 4 <= 7.
Proof.
  assert (Hs : search (source (createPattern (str "hell"))) None
                      (str "oh h.e.l.l no") = Some (3, 7))
    by (vm_compute; reflexivity).
  split; [exact Hs|].
  exact (proj1 (match_spans_word (str "hell") None (str "oh h.e.l.l no") 3 7
                                 eq_refl Hs)).
Defined.

(** X8: whatever list of words of letters [BANNED_WORDS] is extended to,
    [censorMessage] run with the rule objects built from it returns (the
    replacer never throws), leaves every [lastIndex] at 0, preserves the
    length of the message and only writes asterisks. *)
Theorem censorMessage_total_for_any_words (words : list jsstring)
  (message : jsstring) :
  forallb plain_word words = true ->
  exists out,
    censorMessage message (rules_of words) = Some (out, rules_of words)
    /\ length out = length message
    /\ Forall2 (fun x y => y = x \/ y = star) message out.
Proof.
  intros H. exists (censor_with (rules_of words) message). split; [|split].
  - unfold censorMessage.
    rewrite forEach_replace_total by now apply rules_of_consume.
    now rewrite rules_of_rewound.
  - apply censor_with_length.
  - apply censor_with_kept_or_star.
Qed.

Lemma censorMessage_total_for_any_words_witness :
  exists out,
    censorMessage (str "you N o o b") (rules_of [str "noob"; str "loser"])
    = Some (out, rules_of [str "noob"; str "loser"])
    /\ length out = 11
    /\ Forall2 (fun x y => y = x \/ y = star) (str "you N o o b") out.
Proof.
  exact (censorMessage_total_for_any_words [str "noob"; str "loser"]
                                           (str "you N o o b") eq_refl).
Defined.

End FilterShape.

Section DetectState.
Import Censor CensorSpec FilterFacts.

Lemma char_before_prev_at s k : char_before s k = prev_at None s k.
Proof. now destruct k. Qed.

(** A success of the matcher at some offset is found by the search, at
    that offset or earlier. *)
Lemma matcher_found r : forall k s prev n,
  k <= length s ->
  matcher r (prev_at prev s k) (skipn k s) = Some n ->
  search r prev s <> None.
Proof.
  induction k as [|k IH]; intros s prev n Hk Hm.
  - simpl in Hm. destruct s; simpl; simpl in Hm; rewrite Hm; discriminate.
  - destruct s as [|c s]; [simpl in Hk; lia|].
    simpl. destruct (matcher r prev (c :: s)); [discriminate|].
    assert (Hs : search r (Some c) s <> None).
    { apply (IH s (Some c) n); [simpl in Hk; lia|].
      simpl in Hm. destruct k; exact Hm. }
    destruct (search r (Some c) s) as [[i m]|]; [discriminate|contradiction].
Qed.

Lemma test_true_finds R s :
  fst (test R s) = true -> search (source R) None s <> None.
Proof.
  unfold test, exec. destruct (Nat.ltb_spec (length s) (lastIndex R)) as [Hlt|Hge];
    [discriminate|].
  destruct (search (source R) (char_before s (lastIndex R)) (skipn (lastIndex R) s))
    as [[i n]|] eqn:Hs; [|discriminate].
  intros _. destruct (search_some_inv _ _ _ _ _ Hs) as (Hl & Hm & _).
  rewrite length_skipn in Hl.
  apply (matcher_found (source R) (lastIndex R + i) s None n); [lia|].
  rewrite skipn_skipn in Hm.
  replace (lastIndex R + i) with (i + lastIndex R) by lia.
  destruct i as [|j].
  - simpl in *. now rewrite <- char_before_prev_at.
  - cbn [prev_at] in Hm. rewrite nth_error_skipn in Hm.
    replace (prev_at None s (S j + lastIndex R))
      with (nth_error s (lastIndex R + j)); [exact Hm|].
    replace (S j + lastIndex R) with (S (lastIndex R + j)) by lia. reflexivity.
Qed.

Lemma test_source R s : source (snd (test R s)) = source R.
Proof.
  unfold test, exec. destruct (length s <? lastIndex R); [reflexivity|].
  destruct (search _ _ _) as [[i n]|]; reflexivity.
Qed.

Lemma test_false_rewinds R s :
  fst (test R s) = false ->
  snd (test R s) = {| source := source R; lastIndex := 0 |}.
Proof.
  unfold test, exec. destruct (length s <? lastIndex R); [reflexivity|].
  destruct (search _ _ _) as [[i n]|]; [discriminate|reflexivity].
Qed.

Lemma some_test_rule_text s : forall ps,
  map rule_text (snd (some_test ps s)) = map rule_text ps.
Proof.
  induction ps as [|p ps IH]; [reflexivity|].
  simpl. pose proof (test_source (pattern p) s) as Hsrc.
  destruct (test (pattern p) s) as [[|] R']; simpl in Hsrc.
  - simpl. unfold rule_text at 1 3. simpl. now rewrite Hsrc.
  - destruct (some_test ps s) as [b ps'']. simpl in *.
    unfold rule_text at 1 3. simpl. now rewrite Hsrc, IH.
Qed.

Lemma some_test_true_finds s : forall ps,
  fst (some_test ps s) = true -> existsb (fun p => finds_match p s) ps = true.
Proof.
  induction ps as [|p ps IH]; [discriminate|].
  simpl. pose proof (test_true_finds (pattern p) s) as Ht.
  destruct (test (pattern p) s) as [[|] R']; simpl in Ht.
  - intros _. unfold finds_match at 1.
    destruct (search (source (pattern p)) None s); [reflexivity|].
    now specialize (Ht eq_refl).
  - destruct (some_test ps s) as [b ps'']. simpl in *. intros Hb.
    rewrite (IH Hb). apply orb_true_r.
Qed.

Lemma some_test_false_rewinds s : forall ps,
  fst (some_test ps s) = false -> snd (some_test ps s) = map rewound ps.
Proof.
  induction ps as [|p ps IH]; [reflexivity|].
  simpl. pose proof (test_false_rewinds (pattern p) s) as Ht.
  destruct (test (pattern p) s) as [[|] R']; simpl in Ht; [discriminate|].
  destruct (some_test ps s) as [b ps'']. simpl in *. intros Hb.
  rewrite (Ht eq_refl), (IH Hb). reflexivity.
Qed.

Lemma finds_match_state s ps :
  is_patterns_state ps ->
  existsb (fun p => finds_match p s) ps = detect s.
Proof.
  unfold is_patterns_state, detect. intros H.
  assert (E : forall qs, existsb (fun p => finds_match p s) qs
              = existsb (fun t => match search (snd t) None s with
                                  | Some _ => true | None => false end)
                        (map rule_text qs)).
  { induction qs as [|q qs IHq]; simpl; [reflexivity|]. now rewrite IHq. }
  now rewrite E, H, <- E.
Qed.

(** X9: in every state of the rule objects, [containsProfanity] changes
    nothing but [lastIndex] properties, and its answer true is never wrong:
    some rule's matcher does find a match in the message. *)
Theorem containsProfanity_true_is_right (ps : list rule) (message : jsstring) :
  is_patterns_state ps ->
  is_patterns_state (snd (containsProfanity message ps))
  /\ (fst (containsProfanity message ps) = true -> detect message = true).
Proof.
  intros H. split.
  - unfold is_patterns_state, containsProfanity.
    now rewrite some_test_rule_text.
  - intros Hb. rewrite <- (finds_match_state message ps H).
    now apply some_test_true_finds.
Qed.

Lemma containsProfanity_true_is_right_witness :
  let ps1 := snd (containsProfanity (str "oh shit, shit") patterns) in
  fst (containsProfanity (str "oh shit, shit") ps1) = true
  /\ detect (str "oh shit, shit") = true.
Proof.
  intros ps1.
  assert (Hb : fst (containsProfanity (str "oh shit, shit") ps1) = true)
    by (vm_compute; reflexivity).
  split; [exact Hb|].
  refine (proj2 (containsProfanity_true_is_right ps1 (str "oh shit, shit") _) Hb).
  vm_compute. reflexivity.
Defined.

(** X10: when [containsProfanity] answers false it leaves every
    [lastIndex] at 0, so the call that follows, on any message, answers
    exactly whether some rule's matcher finds a match. *)
Theorem containsProfanity_false_rewinds (ps : list rule) (message : jsstring) :
  is_patterns_state ps ->
  fst (containsProfanity message ps) = false ->
  snd (containsProfanity message ps) = patterns
  /\ forall next,
       fst (containsProfanity next (snd (containsProfanity message ps)))
       = detect next.
Proof.
  intros H Hb.
  assert (E : snd (containsProfanity message ps) = patterns).
  { unfold containsProfanity. rewrite some_test_false_rewinds by exact Hb.
    now apply rewound_state. }
  split; [exact E|]. intros next. rewrite E. apply containsProfanity_rewound.
Qed.

Lemma containsProfanity_false_rewinds_witness :
  let ps1 := snd (containsProfanity (str "shit") patterns) in
  fst (containsProfanity (str "shit") ps1) = false
  /\ fst (containsProfanity (str "shit")
            (snd (containsProfanity (str "shit") ps1))) = true.
Proof.
  intros ps1.
  assert (Hb : fst (containsProfanity (str "shit") ps1) = false)
    by (vm_compute; reflexivity).
  assert (Hs : is_patterns_state ps1) by (vm_compute; reflexivity).
  split; [exact Hb|].
  rewrite (proj2 (containsProfanity_false_rewinds ps1 (str "shit") Hs Hb) (str "shit")).
  vm_compute. reflexivity.
Defined.

(** X11: a [censorMessage] call leaves the rule objects rewound, so a
    [containsProfanity] call that directly follows it answers exactly
    whether some rule's matcher finds a match, whatever the state was
    before. *)
Theorem containsProfanity_after_censorMessage (ps : list rule)
  (text message : jsstring) :
  is_patterns_state ps ->
  exists out ps',
    censorMessage text ps = Some (out, ps')
    /\ fst (containsProfanity message ps') = detect message.
Proof.
  intros H. exists (censor text), patterns.
  split; [now apply censorMessage_censor|apply containsProfanity_rewound].
Qed.

Lemma containsProfanity_after_censorMessage_witness :
  let ps1 := snd (containsProfanity (str "shit") patterns) in
  exists out ps',
    censorMessage (str "hello") ps1 = Some (out, ps')
    /\ fst (containsProfanity (str "shit") ps') = detect (str "shit").
Proof.
  intros ps1.
  apply (containsProfanity_after_censorMessage ps1 (str "hello") (str "shit")).
  vm_compute. reflexivity.
Defined.

(** X12: a message of fewer than three characters is never altered by
    [censorMessage] and never flagged by [containsProfanity], in any state
    of the rule objects. *)
Theorem short_message_untouched (ps : list rule) (message : jsstring) :
  is_patterns_state ps -> length message < 3 ->
  censorMessage message ps = Some (message, patterns)
  /\ fst (containsProfanity message ps) = false.
Proof.
  intros H Hlen.
  assert (Hd : detect message = false).
  { unfold detect. apply not_true_is_false. intros Ht.
    apply existsb_exists in Ht as (p & Hin & Hf).
    assert (Ha : forallb (fun q => 3 <=? atoms (source (pattern q))) patterns = true)
      by (vm_compute; reflexivity).
    rewrite forallb_forall in Ha. specialize (Ha p Hin). apply Nat.leb_le in Ha.
    unfold finds_match in Hf.
    destruct (search (source (pattern p)) None message) as [[i n]|] eqn:Hs;
      [|discriminate].
    destruct (search_some_inv _ _ _ _ _ Hs) as (Hl & Hm & _).
    apply matcher_length in Hm. lia. }
  split.
  - rewrite censorMessage_censor by exact H. do 2 f_equal.
    now apply (censor_with_no_match patterns).
  - destruct (fst (containsProfanity message ps)) eqn:Hb; [|reflexivity].
    unfold containsProfanity in Hb. apply some_test_true_finds in Hb.
    rewrite (finds_match_state message ps H) in Hb. congruence.
Qed.

Lemma short_message_untouched_witness :
  censorMessage (str "as") patterns = Some (str "as", patterns)
  /\ fst (containsProfanity (str "as") patterns) = false.
Proof.
  apply (short_message_untouched patterns (str "as") patterns_state).
  simpl. lia.
Defined.

End DetectState.

Section CaseInsensitive.
Import Censor CensorSpec FilterFacts.

Ltac split_comparisons :=
  repeat match goal with
         | |- context [N.leb ?a ?b] => destruct (N.leb_spec a b)
         | |- context [N.eqb ?a ?b] => destruct (N.eqb_spec a b)
         end.

Lemma same_letter_cases x y :
  same_letter x y -> x = y \/ (is_letter x = true /\ is_letter y = true).
Proof.
  unfold same_letter, canonicalize, is_letter.
  split_comparisons; simpl; intros; try (left; lia); right; split; reflexivity || lia.
Qed.

Lemma is_letter_word x : is_letter x = true -> is_word_char x = true.
Proof.
  unfold is_letter, is_word_char. split_comparisons; simpl; intros; congruence || lia.
Qed.

Lemma is_letter_not_space x : is_letter x = true -> is_white_space x = false.
Proof.
  intros Hl. apply not_true_is_false. intros Hs.
  unfold is_white_space in Hs. apply existsb_exists in Hs as (c & Hin & Hc).
  apply N.eqb_eq in Hc. subst c. simpl in Hin.
  repeat (destruct Hin as [<-|Hin]; [discriminate Hl|]). exact Hin.
Qed.

Lemma same_letter_word x y : same_letter x y -> is_word_char x = is_word_char y.
Proof.
  intros H. destruct (same_letter_cases x y H) as [->|[Hx Hy]]; [reflexivity|].
  now rewrite !is_letter_word.
Qed.

Lemma same_letter_space x y : same_letter x y -> is_white_space x = is_white_space y.
Proof.
  intros H. destruct (same_letter_cases x y H) as [->|[Hx Hy]]; [reflexivity|].
  now rewrite !is_letter_not_space.
Qed.

Lemma same_letter_star x y : same_letter x y -> N.eqb star x = N.eqb star y.
Proof.
  intros H. destruct (same_letter_cases x y H) as [->|[Hx Hy]]; [reflexivity|].
  destruct (N.eqb_spec star x) as [<-|_]; [discriminate Hx|].
  destruct (N.eqb_spec star y) as [<-|_]; [discriminate Hy|reflexivity].
Qed.

Lemma class_matches_same items x y :
  same_letter x y -> class_matches items x = class_matches items y.
Proof.
  intros H. unfold class_matches. induction items as [|it items IH]; [reflexivity|].
  simpl. rewrite IH. f_equal. destruct it as [a|]; simpl.
  - unfold same_letter in H. now rewrite H.
  - now apply same_letter_space.
Qed.

Lemma hd_error_same s s' :
  Forall2 same_letter s s' -> IsWordChar (hd_error s) = IsWordChar (hd_error s').
Proof.
  intros [|x y ? ? Hxy _]; [reflexivity|]. simpl. now apply same_letter_word.
Qed.

Lemma matcher_same r : forall s s' prev prev',
  Forall2 same_letter s s' -> IsWordChar prev = IsWordChar prev' ->
  matcher r prev s = matcher r prev' s'.
Proof.
  induction r as [|nd r IH]; intros s s' prev prev' Hs Hp; [reflexivity|].
  destruct nd as [c|items|items|].
  - destruct Hs as [|x y s s' Hxy Hs]; [reflexivity|]. simpl.
    unfold same_letter in Hxy. rewrite Hxy.
    rewrite (IH s s' (Some x) (Some y) Hs); [reflexivity|].
    simpl. now apply same_letter_word.
  - destruct Hs as [|x y s s' Hxy Hs]; [reflexivity|]. simpl.
    rewrite (class_matches_same items x y Hxy).
    rewrite (IH s s' (Some x) (Some y) Hs); [reflexivity|].
    simpl. now apply same_letter_word.
  - revert prev prev' Hp.
    induction Hs as [|x y s s' Hxy Hs IHs]; intros prev prev' Hp.
    + rewrite (matcher_star_unfold items r prev []),
        (matcher_star_unfold items r prev' []).
      now apply IH.
    + rewrite (matcher_star_unfold items r prev (x :: s)),
        (matcher_star_unfold items r prev' (y :: s')).
      rewrite (class_matches_same items x y Hxy).
      rewrite (IHs (Some x) (Some y)) by (simpl; now apply same_letter_word).
      rewrite (IH (x :: s) (y :: s') prev prev'); [reflexivity| |exact Hp].
      now constructor.
  - simpl. rewrite Hp, (hd_error_same s s' Hs).
    now rewrite (IH s s' prev prev' Hs Hp).
Qed.

Lemma search_same r : forall s s' prev prev',
  Forall2 same_letter s s' -> IsWordChar prev = IsWordChar prev' ->
  search r prev s = search r prev' s'.
Proof.
  intros s s' prev prev' Hs. revert prev prev'.
  induction Hs as [|x y s s' Hxy Hs IH]; intros prev prev' Hp.
  - simpl. now rewrite (matcher_same r [] [] prev prev') by (auto; constructor).
  - simpl. rewrite (matcher_same r (x :: s) (y :: s') prev prev')
      by (auto; now constructor).
    rewrite (IH (Some x) (Some y)) by (simpl; now apply same_letter_word).
    reflexivity.
Qed.

Lemma censor_pass_same r : forall s s',
  Forall2 same_letter s s' ->
  forall prev prev' k,
  IsWordChar prev = IsWordChar prev' ->
  Forall2 same_letter (censor_pass r prev s k) (censor_pass r prev' s' k).
Proof.
  induction 1 as [|x y s s' Hxy Hs IH]; intros prev prev' k Hp; [constructor|].
  assert (Hw : IsWordChar (Some x) = IsWordChar (Some y))
    by (simpl; now apply same_letter_word).
  simpl. destruct k.
  - rewrite (matcher_same r (x :: s) (y :: s') prev prev')
      by (auto; now constructor).
    constructor; [exact Hxy|]. now apply IH.
  - constructor; [reflexivity|]. now apply IH.
Qed.

Lemma censor_with_same : forall ps s s',
  Forall2 same_letter s s' ->
  Forall2 same_letter (censor_with ps s) (censor_with ps s').
Proof.
  induction ps as [|p ps IH]; intros s s' Hs; [exact Hs|].
  change (censor_with (p :: ps) s)
    with (censor_with ps (censor_pass (source (pattern p)) None s 0)).
  change (censor_with (p :: ps) s')
    with (censor_with ps (censor_pass (source (pattern p)) None s' 0)).
  apply IH. now apply censor_pass_same.
Qed.

Lemma stars_same s s' :
  Forall2 same_letter s s' -> map (N.eqb star) s = map (N.eqb star) s'.
Proof.
  induction 1 as [|x y s s' Hxy Hs IH]; [reflexivity|].
  cbn [map]. now rewrite IH, (same_letter_star x y Hxy).
Qed.

Lemma detect_same m m' : Forall2 same_letter m m' -> detect m = detect m'.
Proof.
  intros Hm. unfold detect. induction patterns as [|p ps IH]; [reflexivity|].
  simpl. rewrite IH. f_equal. unfold finds_match.
  now rewrite (search_same (source (pattern p)) m m' None None Hm eq_refl).
Qed.

(** X13: the filter is blind to the case of ASCII letters: two messages
    that differ only there are censored at the same positions (the outputs
    again differ only in case and have their asterisks in the same places)
    and are detected alike. *)
Theorem censorMessage_ignores_case (ps ps' : list rule) (m m' : jsstring) :
  is_patterns_state ps -> is_patterns_state ps' ->
  Forall2 same_letter m m' ->
  exists out out',
    censorMessage m ps = Some (out, patterns)
    /\ censorMessage m' ps' = Some (out', patterns)
    /\ Forall2 same_letter out out'
    /\ map (N.eqb star) out = map (N.eqb star) out'
    /\ detect m = detect m'.
Proof.
  intros H H' Hm. exists (censor m), (censor m').
  split; [now apply censorMessage_censor|].
  split; [now apply censorMessage_censor|].
  assert (Hout : Forall2 same_letter (censor m) (censor m'))
    by (apply (censor_with_same patterns); exact Hm).
  split; [exact Hout|]. split; [now apply stars_same|].
  now apply detect_same.
Qed.

Lemma censorMessage_ignores_case_witness :
  exists out out',
    censorMessage (str "ShIt no") patterns = Some (out, patterns)
    /\ censorMessage (str "shit NO") patterns = Some (out', patterns)
    /\ Forall2 same_letter out out'
    /\ map (N.eqb star) out = map (N.eqb star) out'
    /\ detect (str "ShIt no") = detect (str "shit NO").
Proof.
  apply (censorMessage_ignores_case patterns patterns (str "ShIt no") (str "shit NO")
           patterns_state patterns_state).
  repeat constructor.
Defined.

End CaseInsensitive.

Section VotingComposition.
Import Mirror Voting Tally.

Lemma find_select_none m u table :
  find (fun v => String.eqb (user_identifier v) u) (select_votes table m) = None ->
  rows_of m u table = [].
Proof.
  unfold select_votes, rows_of, same_pair.
  induction table as [|v vs IH]; simpl; [reflexivity|].
  destruct (String.eqb (match_id v) m); simpl.
  - destruct (String.eqb (user_identifier v) u); [discriminate|exact IH].
  - exact IH.
Qed.

Lemma find_select_some m u table e :
  find (fun v => String.eqb (user_identifier v) u) (select_votes table m) = Some e ->
  In e table /\ match_id e = m /\ user_identifier e = u.
Proof.
  intros H. apply find_some in H as [Hin Hu].
  unfold select_votes in Hin. apply filter_In in Hin as [Hin Hm].
  apply String.eqb_eq in Hu, Hm. auto.
Qed.

Lemma fetchVotes_ready data c :
  userIdentifier (fetchVotes data c) = userIdentifier c
  /\ isVoting (fetchVotes data c) = isVoting c
  /\ matchId (fetchVotes data c) = matchId c.
Proof.
  unfold fetchVotes. destruct (String.eqb (userIdentifier c) ""); [auto|].
  destruct data as [rows|]; [|auto].
  destruct (find _ rows); auto.
Qed.

Lemma fetchVotes_votes rows c :
  userIdentifier c <> "" -> votes (fetchVotes (Some rows) c) = rows.
Proof.
  intros Hu. unfold fetchVotes.
  destruct (String.eqb_spec (userIdentifier c) ""); [contradiction|].
  destruct (find _ rows); reflexivity.
Qed.

(** X14: right after [fetchVotes] has loaded the rows of the match, the
    write [handleVote] issues fits the table: an insert only when the table
    has no row for the (match, voter) pair, so UNIQUE(match_id,
    user_identifier) accepts it; an update only of an existing row of this
    voter and match that holds another team; and no write only when the
    voter's row already holds the team. *)
Theorem handleVote_after_fetchVotes (table : list VoteData) (c : component)
  (team : string) :
  userIdentifier c <> "" -> isVoting c = false ->
  match fst (handleVote team (fetchVotes (Some (select_votes table (matchId c))) c)) with
  | Some (Insert m t u) =>
      rows_of (matchId c) (userIdentifier c) table = []
      /\ m = matchId c /\ t = team /\ u = userIdentifier c
  | Some (Update row_id t) =>
      t = team
      /\ exists row, In row table /\ id row = row_id
                     /\ match_id row = matchId c
                     /\ user_identifier row = userIdentifier c
                     /\ team_voted row <> team
  | None =>
      exists row, In row table /\ match_id row = matchId c
                  /\ user_identifier row = userIdentifier c
                  /\ team_voted row = team
  end.
Proof.
  intros Hu Hv.
  destruct (fetchVotes_ready (Some (select_votes table (matchId c))) c)
    as (Eu & Ev & Em).
  rewrite handleVote_ready by (rewrite ?Eu, ?Ev; assumption).
  rewrite (fetchVotes_votes _ c Hu), Eu.
  destruct (find _ (select_votes table (matchId c))) as [e|] eqn:Hf.
  - apply find_select_some in Hf as (Hin & Hm & Hue).
    destruct (String.eqb_spec (team_voted e) team) as [Et|Et]; simpl.
    + exists e. auto.
    + split; [reflexivity|]. exists e. auto.
  - cbn [fst]. rewrite ?Em, ?Eu. split; [|auto]. now apply find_select_none.
Qed.

Lemma handleVote_after_fetchVotes_witness :
  let table := [mkVote "id1" "m1" "Lions" "u1"; mkVote "id2" "m2" "Bears" "u1"] in
  let c := mkComponent "m1" [] None "u1" false in
  match fst (handleVote "Tigers" (fetchVotes (Some (select_votes table "m1")) c)) with
  | Some (Insert m t u) =>
      rows_of "m1" "u1" table = [] /\ m = "m1" /\ t = "Tigers" /\ u = "u1"
  | Some (Update row_id t) =>
      t = "Tigers"
      /\ exists row, In row table /\ id row = row_id /\ match_id row = "m1"
                     /\ user_identifier row = "u1" /\ team_voted row <> "Tigers"
  | None =>
      exists row, In row table /\ match_id row = "m1"
                  /\ user_identifier row = "u1" /\ team_voted row = "Tigers"
  end.
Proof.
  intros table c.
  assert (Hu : userIdentifier c <> "") by discriminate.
  exact (handleVote_after_fetchVotes table c "Tigers" Hu eq_refl).
Defined.

(** X15: when the INSERT event of a first vote has not reached the mirror,
    a second cast for another team is rejected by the table but
    [setUserVote] still runs: the component shows the new team as the
    voter's choice while the only row of the (match, voter) pair keeps the
    first team. *)
Theorem stale_mirror_shows_unsaved_vote (w : world)
  (teamA teamB fresh1 fresh2 : string) :
  first_vote_ahead w -> ~ In fresh1 (ids (remote w)) ->
  userVote (comp (cast_twice teamA teamB fresh1 fresh2 false w)) = Some teamB
  /\ rows_of (matchId (comp w)) (userIdentifier (comp w))
             (remote (cast_twice teamA teamB fresh1 fresh2 false w))
     = [mkVote fresh1 (matchId (comp w)) teamA (userIdentifier (comp w))].
Proof.
  intros Hw Hfresh. rewrite (cast_twice_stale w teamA teamB fresh1 fresh2 Hw Hfresh).
  split; [reflexivity|].
  destruct Hw as (_ & _ & Hrows & _ & _).
  cbn [remote]. unfold rows_of. rewrite filter_app, Hrows. simpl.
  unfold same_pair. simpl. now rewrite !String.eqb_refl.
Qed.

Lemma stale_mirror_shows_unsaved_vote_witness :
  let w := {| matches := ["m1"]; remote := [];
              comp := mkComponent "m1" [] None "u1" false |} in
  userVote (comp (cast_twice "Lions" "Tigers" "id1" "id2" false w)) = Some "Tigers"
  /\ rows_of "m1" "u1" (remote (cast_twice "Lions" "Tigers" "id1" "id2" false w))
     = [mkVote "id1" "m1" "Lions" "u1"].
Proof.
  intros w.
  apply (stale_mirror_shows_unsaved_vote w "Lions" "Tigers" "id1" "id2").
  - repeat split; try reflexivity; [discriminate|now left].
  - intros [].
Defined.

End VotingComposition.

Section ReactionProperties.
Import Reactions.





End ReactionProperties.

Section SendProperties.
Import Censor CensorSpec FilterFacts Send.

Lemma trimStart_blank s : forallb is_white_space s = true -> trimStart s = [].
Proof.
  induction s as [|c s IH]; [reflexivity|]. cbn [forallb trimStart].
  intros H. apply andb_prop in H as [Hc Hs]. rewrite Hc. now apply IH.
Qed.

Lemma trimStart_not_blank s :
  forallb is_white_space s = false ->
  exists c t, trimStart s = c :: t /\ is_white_space c = false.
Proof.
  induction s as [|c s IH]; [discriminate|]. cbn [forallb trimStart].
  destruct (is_white_space c) eqn:Hc; [exact IH|].
  intros _. now exists c, s.
Qed.

Lemma trimStart_head s c t : trimStart s = c :: t -> is_white_space c = false.
Proof.
  induction s as [|x s IH]; [discriminate|]. cbn [trimStart].
  destruct (is_white_space x) eqn:Hx; [exact IH|].
  intros E. injection E as <- _. exact Hx.
Qed.

Lemma trimStart_snoc l x :
  is_white_space x = false -> trimStart (l ++ [x]) = trimStart l ++ [x].
Proof.
  intros Hx. induction l as [|c l IH]; cbn [app trimStart].
  - now rewrite Hx.
  - destruct (is_white_space c); [exact IH|reflexivity].
Qed.

Lemma trim_blank s : forallb is_white_space s = true -> trim s = [].
Proof. intros H. unfold trim. now rewrite (trimStart_blank s H). Qed.

(** A text with a character that is not white space trims to a text that
    starts and ends with such a character. *)
Lemma trim_not_blank s :
  forallb is_white_space s = false ->
  exists c t d r,
    trim s = c :: t /\ is_white_space c = false
    /\ rev (trim s) = d :: r /\ is_white_space d = false.
Proof.
  intros H. destruct (trimStart_not_blank s H) as (c & t & Ht & Hc).
  unfold trim. rewrite Ht. cbn [rev]. rewrite (trimStart_snoc _ _ Hc).
  rewrite rev_app_distr. cbn [rev app].
  exists c, (rev (trimStart (rev t))). rewrite rev_involutive.
  destruct (trimStart (rev t)) as [|d r] eqn:Hd.
  - exists c, []. auto.
  - exists d, (r ++ [c]). repeat split; auto.
    now apply (trimStart_head (rev t) d r).
Qed.

Lemma trim_fixed s c t d r :
  s = c :: t -> is_white_space c = false ->
  rev s = d :: r -> is_white_space d = false ->
  trim s = s.
Proof.
  intros -> Hc Hr Hd. unfold trim. cbn [trimStart]. rewrite Hc, Hr.
  cbn [trimStart]. rewrite Hd, <- Hr. apply rev_involutive.
Qed.

Lemma Forall2_rev {A B} (R : A -> B -> Prop) l l' :
  Forall2 R l l' -> Forall2 R (rev l) (rev l').
Proof.
  induction 1 as [|x y l l' Hxy Hl IH]; [constructor|].
  simpl. apply Forall2_app; [exact IH|]. now repeat constructor.
Qed.

(** Censoring a trimmed, non-empty text gives a trimmed, non-empty text. *)
Lemma censor_trimmed c t d r :
  is_white_space c = false ->
  rev (c :: t) = d :: r -> is_white_space d = false ->
  censor (c :: t) <> [] /\ trim (censor (c :: t)) = censor (c :: t).
Proof.
  intros Hc Hr Hd.
  pose proof (censor_with_head patterns (c :: t)) as Hhead.
  pose proof (Forall2_rev _ _ _ (censor_with_kept_or_star patterns (c :: t))) as Hrev.
  unfold censor.
  remember (censor_with patterns (c :: t)) as out eqn:Hout. clear Hout.
  cbn [hd_error] in Hhead.
  destruct out as [|c' t']; [discriminate Hhead|].
  cbn [hd_error] in Hhead. injection Hhead as ->. split; [discriminate|].
  rewrite Hr in Hrev. inversion Hrev as [|? d' ? r' Hdd _ E1 E2]; subst.
  apply (trim_fixed (c :: t') c t' d' r'); auto.
  destruct Hdd as [-> | ->]; [exact Hd|reflexivity].
Qed.

(** X17: [handleSend] sends nothing when the input box is empty or holds
    only white space: no row is inserted and the rule objects are not
    touched. *)
Theorem handleSend_ignores_blank (sportId : string) (newMessage username : jsstring)
  (ps : list rule) :
  forallb is_white_space newMessage = true ->
  handleSend sportId newMessage username ps = Some (None, ps).
Proof.
  intros H. unfold handleSend. now rewrite (trim_blank newMessage H).
Qed.

Lemma handleSend_ignores_blank_witness :
  handleSend "cricket" (str "   ") (str "fan") patterns = Some (None, patterns).
Proof.
  apply (handleSend_ignores_blank "cricket" (str "   ") (str "fan") patterns).
  reflexivity.
Defined.

(** X18: for any other input, in every state of the rule objects,
    [handleSend] inserts one row for the sport and clears the input box; the
    stored message is the censored trimmed input: not empty, as long as the
    trimmed input, and itself free of leading and trailing white space; the
    stored username is never empty, and it is "Anonymous", with nothing
    written to localStorage, when the name field is blank. *)
Theorem handleSend_stores_trimmed (sportId : string) (newMessage username : jsstring)
  (ps : list rule) :
  is_patterns_state ps ->
  forallb is_white_space newMessage = false ->
  exists s,
    handleSend sportId newMessage username ps = Some (Some s, patterns)
    /\ sport_id (row s) = sportId
    /\ input_after s = []
    /\ message (row s) = censor (trim newMessage)
    /\ message (row s) <> []
    /\ length (message (row s)) = length (trim newMessage)
    /\ trim (message (row s)) = message (row s)
    /\ Send.username (row s) <> []
    /\ (forallb is_white_space username = true ->
        Send.username (row s) = str "Anonymous" /\ stored_name s = None).
Proof.
  intros Hps Hmsg.
  destruct (trim_not_blank newMessage Hmsg) as (c & t & d & r & Ht & Hc & Hr & Hd).
  unfold handleSend. rewrite Ht in *. clear Ht.
  destruct (censor_trimmed c t d r Hc Hr Hd) as [Hne Hfix].
  rewrite (censorMessage_censor ps (c :: t) Hps).
  rewrite (censorMessage_censor patterns _ patterns_state).
  eexists. split; [reflexivity|].
  cbn [row sport_id input_after message Send.username stored_name].
  split; [reflexivity|]. split; [reflexivity|]. split; [reflexivity|].
  split; [exact Hne|]. split; [apply (censor_with_length patterns)|].
  split; [exact Hfix|]. split.
  - intros E. apply (f_equal (@length char)) in E.
    unfold censor in E. rewrite censor_with_length in E.
    destruct (trim username); discriminate E.
  - intros H. rewrite (trim_blank username H). split; reflexivity.
Qed.

Lemma handleSend_stores_trimmed_witness :
  exists s,
    handleSend "cricket" (str "  what the HELL  ") (str " ") patterns
    = Some (Some s, patterns)
    /\ message (row s) = str "what the H***"
    /\ Send.username (row s) = str "Anonymous".
Proof.
  destruct (handleSend_stores_trimmed "cricket" (str "  what the HELL  ") (str " ")
              patterns patterns_state eq_refl)
    as (s & Hs & _ & _ & Hm & _ & _ & _ & _ & Hu).
  exists s. split; [exact Hs|]. split.
  - rewrite Hm. vm_compute. reflexivity.
  - exact (proj1 (Hu eq_refl)).
Defined.

End SendProperties.

Section SyncedMirror.
Import Mirror Voting Tally.

Lemma same_id_same_row (table : list VoteData) (a b : VoteData) :
  NoDup (ids table) -> In a table -> In b table -> id a = id b -> a = b.
Proof.
  unfold ids. induction table as [|v vs IH]; simpl; intros Hd Ha Hb E; [destruct Ha|].
  inversion Hd as [|? ? Hv Hvs]; subst.
  destruct Ha as [->|Ha], Hb as [->|Hb]; auto.
  - exfalso. apply Hv. rewrite E. now apply in_map.
  - exfalso. apply Hv. rewrite <- E. now apply in_map.
Qed.

Lemma filter_same_id (table : list VoteData) (e : VoteData) :
  NoDup (ids table) -> In e table ->
  filter (fun v => String.eqb (id v) (id e)) table = [e].
Proof.
  unfold ids. induction table as [|v vs IH]; simpl; intros Hd Hin; [destruct Hin|].
  inversion Hd as [|? ? Hv Hvs]; subst.
  destruct Hin as [->|Hin].
  - rewrite String.eqb_refl. f_equal.
    assert (Hn : ~ In (id e) (ids vs)) by exact Hv.
    clear -Hn. induction vs as [|x xs IHx]; simpl; [reflexivity|].
    destruct (String.eqb_spec (id x) (id e)) as [E|E].
    + exfalso. apply Hn. left. exact E.
    + apply IHx. intros H. apply Hn. now right.
  - destruct (String.eqb_spec (id v) (id e)) as [E|E].
    + exfalso. apply Hv. rewrite E. now apply in_map.
    + now apply IH.
Qed.

Lemma select_votes_update m team e : forall table,
  (forall v, In v table -> id v = id e -> v = e) ->
  map (fun v => if String.eqb (id v) (id (set_team team e)) then set_team team e else v)
      (select_votes table m)
  = select_votes
      (map (fun v => if String.eqb (id v) (id e) then set_team team v else v) table) m.
Proof.
  unfold select_votes. induction table as [|v vs IH]; intros H; [reflexivity|].
  cbn [map filter].
  assert (IH' := IH (fun x Hx => H x (or_intror Hx))).
  destruct (String.eqb_spec (id v) (id e)) as [E|E].
  - rewrite (H v (or_introl eq_refl) E). cbn [match_id set_team].
    destruct (String.eqb (match_id e) m); cbn [map]; [|exact IH'].
    cbn [id set_team]. rewrite String.eqb_refl. now rewrite <- IH'.
  - destruct (String.eqb (match_id v) m); cbn [map]; [|exact IH'].
    cbn [id set_team]. destruct (String.eqb_spec (id v) (id e)); [contradiction|].
    now rewrite <- IH'.
Qed.

Lemma not_in_ids_existsb fresh table :
  existsb (fun v => String.eqb (id v) fresh) table = false -> ~ In fresh (ids table).
Proof.
  unfold ids. induction table as [|v vs IH]; simpl; intros H; [tauto|].
  apply orb_false_elim in H as [Hv Hvs]. intros [E|Hin].
  - rewrite E, String.eqb_refl in Hv. discriminate.
  - now apply IH.
Qed.

(** A cast whose events are delivered keeps a mirror in sync. *)
Lemma cast_and_deliver_in_sync (w : world) (team fresh : string) :
  NoDup (ids (remote w)) -> in_sync w -> in_sync (cast_and_deliver team fresh w).
Proof.
  destruct w as [ms table c]. unfold in_sync, cast_and_deliver, cast.
  cbn [matches remote comp].
  intros Hd Hsync. unfold handleVote.
  destruct (String.eqb (userIdentifier c) "" || isVoting c).
  { unfold deliver. cbn. exact Hsync. }
  destruct (find _ (votes c)) as [e|] eqn:Hf.
  - destruct (String.eqb (team_voted e) team).
    { unfold deliver. cbn. exact Hsync. }
    rewrite Hsync in Hf. apply find_select_some in Hf as (Hin & Hm & _).
    cbn [apply_write]. rewrite (filter_same_id table e Hd Hin). cbn [map].
    unfold deliver.
    cbn [matches remote comp set_votes set_userVote matchId votes filter row_of].
    cbn [match_id set_team]. rewrite Hm, String.eqb_refl. cbn [fold_left handler].
    rewrite Hsync. apply select_votes_update.
    intros v Hv E. now apply (same_id_same_row table).
  - cbn [apply_write].
    destruct (negb (existsb (String.eqb (matchId c)) ms)); cbn [orb].
    { unfold deliver. cbn. exact Hsync. }
    destruct (existsb (same_pair (matchId c) (userIdentifier c)) table); cbn [orb].
    { unfold deliver. cbn. exact Hsync. }
    destruct (existsb (fun v => String.eqb (id v) fresh) table) eqn:Hfresh.
    { unfold deliver. cbn. exact Hsync. }
    unfold deliver.
    cbn [matches remote comp set_votes set_userVote matchId votes filter row_of].
    cbn [match_id]. rewrite String.eqb_refl. cbn [fold_left handler].
    rewrite Hsync. unfold select_votes. rewrite filter_app. cbn [filter match_id].
    now rewrite String.eqb_refl.
Qed.

Lemma cast_and_deliver_remote team fresh w :
  remote (cast_and_deliver team fresh w) = remote (fst (cast team fresh w)).
Proof.
  unfold cast_and_deliver. destruct (cast team fresh w) as [w1 events]. reflexivity.
Qed.

(** X19: a mirror that holds exactly the rows of its match still does
    after a cast whose realtime events are delivered, whatever [handleVote]
    decides; the identifiers of the table stay unique. *)
Theorem cast_keeps_mirror_in_sync (w : world) (team fresh : string) :
  NoDup (ids (remote w)) -> in_sync w ->
  in_sync (cast_and_deliver team fresh w)
  /\ NoDup (ids (remote (cast_and_deliver team fresh w))).
Proof.
  intros Hd Hsync. split; [now apply cast_and_deliver_in_sync|].
  rewrite cast_and_deliver_remote. clear Hsync.
  destruct w as [ms table c]. unfold cast. cbn [matches remote comp] in *.
  destruct (handleVote team c) as [[[row_id t|m t u]|] c']; cbn [apply_write];
    [| |exact Hd].
  - cbn [fst remote].
    replace (ids (map (fun v => if String.eqb (id v) row_id then set_team t v else v)
                      table)) with (ids table); [exact Hd|].
    unfold ids. rewrite map_map. apply map_ext. intros v.
    now destruct (String.eqb (id v) row_id).
  - destruct (negb (existsb (String.eqb m) ms)); cbn [orb]; [exact Hd|].
    destruct (existsb (same_pair m u) table); cbn [orb]; [exact Hd|].
    destruct (existsb (fun v => String.eqb (id v) fresh) table) eqn:Hfresh;
      [exact Hd|].
    cbn [fst remote]. unfold ids. rewrite map_app. cbn [map id].
    pose proof (Add_app fresh (map id table) []) as HA.
    rewrite app_nil_r in HA. apply (NoDup_Add HA).
    split; [exact Hd|]. now apply not_in_ids_existsb.
Qed.

Lemma cast_keeps_mirror_in_sync_witness :
  let row := mkVote "id1" "m1" "Lions" "u1" in
  let w := {| matches := ["m1"]; remote := [row];
              comp := mkComponent "m1" [row] None "u1" false |} in
  in_sync (cast_and_deliver "Tigers" "id2" w)
  /\ NoDup (ids (remote (cast_and_deliver "Tigers" "id2" w))).
Proof.
  intros row w.
  apply (cast_keeps_mirror_in_sync w "Tigers" "id2").
  - repeat constructor. intros [].
  - reflexivity.
Defined.

(** X20: on a mirror in sync, a cast by a ready voter whose match exists
    always leaves, in the table, a row of the (match, voter) pair that holds
    the chosen team (an insert needs the drawn identifier to be new). *)
Theorem cast_records_vote (w : world) (team fresh : string) :
  in_sync w ->
  userIdentifier (comp w) <> "" -> isVoting (comp w) = false ->
  In (matchId (comp w)) (matches w) ->
  ~ In fresh (ids (remote w)) ->
  exists row,
    In row (remote (cast_and_deliver team fresh w))
    /\ match_id row = matchId (comp w)
    /\ user_identifier row = userIdentifier (comp w)
    /\ team_voted row = team.
Proof.
  destruct w as [ms table c]. unfold in_sync, cast_and_deliver, cast.
  cbn [matches remote comp].
  intros Hsync Hu Hv Hfk Hfresh.
  rewrite (handleVote_ready team c Hu Hv).
  destruct (find _ (votes c)) as [e|] eqn:Hf; rewrite Hsync in Hf.
  - apply find_select_some in Hf as (Hin & Hm & Hue).
    destruct (String.eqb_spec (team_voted e) team) as [Et|Et].
    + exists e. unfold deliver. cbn. auto.
    + exists (set_team team e). cbn [apply_write]. unfold deliver. cbn [remote].
      repeat split; auto.
      apply in_map_iff. exists e. now rewrite String.eqb_refl.
  - apply find_select_none in Hf. cbn [apply_write].
    rewrite (existsb_match_exists _ _ Hfk), (existsb_filter_nil _ _ Hf),
      (existsb_id_fresh _ _ Hfresh). cbn [negb orb].
    exists (mkVote fresh (matchId c) team (userIdentifier c)).
    unfold deliver. cbn [remote]. repeat split. apply in_or_app. right. now left.
Qed.

Lemma cast_records_vote_witness :
  let row := mkVote "id1" "m1" "Lions" "u1" in
  let w := {| matches := ["m1"]; remote := [row];
              comp := mkComponent "m1" [row] None "u1" false |} in
  exists r,
    In r (remote (cast_and_deliver "Tigers" "id2" w))
    /\ match_id r = "m1" /\ user_identifier r = "u1" /\ team_voted r = "Tigers".
Proof.
  intros row w.
  apply (cast_records_vote w "Tigers" "id2").
  - reflexivity.
  - discriminate.
  - reflexivity.
  - now left.
  - simpl. intuition discriminate.
Defined.

End SyncedMirror.

Section VoteCasting.
Import Mirror Voting Tally.








End VoteCasting.

Section BannedWords.
Import Censor CensorSpec FilterFacts.

Lemma same_text_eq a : forall b, same_text a b = true -> a = b.
Proof.
  induction a as [|x a IH]; intros [|y b] H; try discriminate; [reflexivity|].
  cbn [same_text] in H. apply andb_prop in H as [Hx Ha].
  apply N.eqb_eq in Hx. subst y. f_equal. now apply IH.
Qed.

Lemma all_stars n : forall l,
  map (N.eqb star) (repeat star n) = map (N.eqb star) l -> l = repeat star n.
Proof.
  induction n as [|n IH]; intros [|x l] H; try discriminate; [reflexivity|].
  change (map (N.eqb star) (repeat star (S n)))
    with (N.eqb star star :: map (N.eqb star) (repeat star n)) in H.
  change (map (N.eqb star) (x :: l))
    with (N.eqb star x :: map (N.eqb star) l) in H.
  rewrite N.eqb_refl in H. revert H.
  destruct (N.eqb_spec star x) as [<-|Hne]; intros H; [|discriminate H].
  injection H as Hl.
  change (repeat star (S n)) with (star :: repeat star n).
  f_equal. now apply IH.
Qed.

Lemma fully_redacted_all : forallb fully_redacted BANNED_WORDS = true.
Proof. vm_compute. reflexivity. Qed.

Lemma fully_redacted_spec c rest :
  fully_redacted (c :: rest) = true ->
  censor_with patterns (c :: rest) = c :: repeat star (length rest)
  /\ detect (c :: rest) = true.
Proof.
  unfold fully_redacted, censor. intros H. apply andb_prop in H as [Hc Hd].
  split; [exact (same_text_eq _ _ Hc)|exact Hd].
Qed.

(** A text that differs only in case from one redacted to its first
    character is redacted to its own first character. *)
Lemma redacted_same c0 rest0 c rest :
  Forall2 same_letter (c0 :: rest0) (c :: rest) ->
  censor_with patterns (c0 :: rest0) = c0 :: repeat star (length rest0) ->
  censor_with patterns (c :: rest) = c :: repeat star (length rest).
Proof.
  intros Hm Hc.
  pose proof (censor_with_same patterns _ _ Hm) as Hout.
  pose proof (censor_with_head patterns (c :: rest)) as Hhead.
  apply stars_same in Hout.
  rewrite Hc in Hout.
  remember (censor_with patterns (c :: rest)) as out eqn:Eout. clear Eout.
  change (hd_error (c :: rest)) with (Some c) in Hhead.
  destruct out as [|c' out']; [discriminate Hhead|].
  change (hd_error (c' :: out')) with (Some c') in Hhead.
  injection Hhead as Hcc. subst c'.
  change (map (N.eqb star) (c0 :: repeat star (length rest0)))
    with (N.eqb star c0 :: map (N.eqb star) (repeat star (length rest0))) in Hout.
  change (map (N.eqb star) (c :: out'))
    with (N.eqb star c :: map (N.eqb star) out') in Hout.
  injection Hout as _ Hout.
  rewrite (all_stars _ _ Hout).
  inversion Hm as [|? ? ? ? _ Hrest]; subst.
  apply Forall2_length in Hrest. rewrite Hrest. reflexivity.
Qed.

(** X21: every banned word, in any casing and in every state of the rule
    objects, is redacted by [censorMessage] to its first character followed
    by one asterisk per remaining character, and some rule finds a match in
    it. *)
Theorem banned_word_any_casing (ps : list rule) (w m : jsstring) :
  is_patterns_state ps -> In w BANNED_WORDS -> Forall2 same_letter w m ->
  exists c rest,
    m = c :: rest
    /\ censorMessage m ps = Some (c :: repeat star (length rest), patterns)
    /\ detect m = true.
Proof.
  intros Hps Hin Hm.
  pose proof fully_redacted_all as Hall.
  rewrite forallb_forall in Hall. specialize (Hall w Hin).
  destruct w as [|c0 rest0]; [discriminate Hall|].
  destruct (fully_redacted_spec c0 rest0 Hall) as [Hc Hd].
  destruct m as [|c rest]; [inversion Hm|].
  exists c, rest. split; [reflexivity|]. split.
  - rewrite (censorMessage_censor ps (c :: rest) Hps). unfold censor.
    rewrite (redacted_same c0 rest0 c rest Hm Hc). reflexivity.
  - rewrite <- (detect_same (c0 :: rest0) (c :: rest) Hm). exact Hd.
Qed.

Lemma banned_word_any_casing_witness :
  exists c rest,
    str "BaStArD" = c :: rest
    /\ censorMessage (str "BaStArD") patterns
       = Some (c :: repeat star (length rest), patterns)
    /\ detect (str "BaStArD") = true.
Proof.
  apply (banned_word_any_casing patterns (str "bastard") (str "BaStArD") patterns_state).
  - vm_compute. do 10 right. now left.
  - repeat constructor.
Defined.

End BannedWords.
